(** * slippost: frame classification and cross-game statistics

    A shallow embedding of [src/slippost.py].  Python dictionaries whose
    only observable use is lookup, key iteration and [==] are finite maps
    ([gmap]); the one dictionary whose iteration order decides a result
    ([STATE_GROUPS]) is an insertion-ordered list of items.  Python
    exceptions are the left summand of [result]. *)

From Stdlib Require Import Ascii.
From stdpp Require Import gmap strings list sorting.

Open Scope string_scope.
Open Scope Z_scope.

(** ** Exceptions *)

Inductive exn := IndexError | KeyError | ZeroDivisionError.

Definition result (A : Type) : Type := (exn + A)%type.

Definition raise {A} (e : exn) : result A := inl e.
Definition ret {A} (a : A) : result A := inr a.

Definition bind {A B} (m : result A) (k : A → result B) : result B :=
  match m with
  | inl e => inl e
  | inr a => k a
  end.

Notation "'do' x <- m ; k" := (bind m (fun x => k))
  (at level 10, x name, m at level 100, k at level 200).

(** [[f(x) for x in l]] where [f] may raise: the first exception aborts. *)
Fixpoint for_each {A B} (f : A → result B) (l : list A) : result (list B) :=
  match l with
  | [] => ret []
  | x :: l' => do y <- f x; do ys <- for_each f l'; ret (y :: ys)
  end.

(** [d[k]] on a dictionary. *)
Definition getitem `{Countable K} {V} (d : gmap K V) (k : K) : result V :=
  match d !! k with
  | Some v => ret v
  | None => raise KeyError
  end.

(** [l[0]] on a list. *)
Definition first_item {A} (l : list A) : result A :=
  match l with
  | [] => raise IndexError
  | x :: _ => ret x
  end.

(** A [for] loop that rebinds an accumulator and whose body may raise. *)
Fixpoint for_fold {A S} (body : S → A → result S) (s : S) (l : list A)
  : result S :=
  match l with
  | [] => ret s
  | x :: l' => do s' <- body s x; for_fold body s' l'
  end.

(** [enumerate(l)]. *)
Definition enumerate {A} (l : list A) : list (nat * A) := imap pair l.

(** The first character of a string, if any. *)
Definition head_char (s : string) : option Ascii.ascii :=
  match s with
  | EmptyString => None
  | String c _ => Some c
  end.

(** ** Insertion-ordered dictionaries

    A dictionary display [{k1: v1, k2: v2, ...}] stores its items left to
    right; an item whose key is already present replaces the value and
    keeps the position of the first occurrence. *)

Fixpoint dict_set {K V} `{EqDecision K} (d : list (K * V)) (k : K) (v : V)
  : list (K * V) :=
  match d with
  | [] => [(k, v)]
  | (k', v') :: d' =>
      if decide (k = k') then (k', v) :: d' else (k', v') :: dict_set d' k v
  end.

Definition dict_display {K V} `{EqDecision K} (items : list (K * V))
  : list (K * V) :=
  foldl (λ d kv, dict_set d kv.1 kv.2) [] items.

(** ** Counters

    A [Counter] is a dictionary from category values to integers. *)

(** [Counter(iterable)]: each element adds one to its count. *)
Definition Counter (iterable : list string) : gmap string Z :=
  foldl (λ c elem, <[elem := default 0 (c !! elem) + 1]> c) ∅ iterable.

(** [sum(counter.values())]. *)
Definition counter_total (counter : gmap string Z) : Z :=
  map_fold (λ _ count acc, acc + count) 0 counter.

(** [counter.most_common()]: the items by descending count. *)
Definition count_ge (x y : string * Z) : Prop := y.2 ≤ x.2.

#[global] Instance count_ge_dec : RelDecision count_ge.
Proof. intros x y. unfold count_ge. apply _. Defined.

Definition most_common (counter : gmap string Z) : list (string * Z) :=
  merge_sort count_ge (map_to_list counter).

(** [first + second] on counters: counts are added key by key (a missing
    key counts 0) and only the positive sums are kept. *)
Definition Counter_add_item (x y : option Z) : option Z :=
  match x, y with
  | None, None => None
  | _, _ =>
      let newcount := default 0 x + default 0 y in
      if decide (newcount > 0) then Some newcount else None
  end.

Definition Counter_add (first second : gmap string Z) : gmap string Z :=
  merge Counter_add_item first second.

(** ** Cross-match aggregation *)

Definition _union_keys {V W} (first : gmap string V) (second : gmap string W)
  : list string :=
  elements (dom first ∪ dom second).

(** [{k: f(k) for k in keys}]. *)
Definition dict_of_keys {V} (f : string → V) (keys : list string)
  : gmap string V :=
  foldl (λ d k, <[k := f k]> d) ∅ keys.

Definition _merge_player_stats (first second : gmap string (gmap string Z))
  : gmap string (gmap string Z) :=
  dict_of_keys
    (λ stat_name, Counter_add (default ∅ (first !! stat_name))
                              (default ∅ (second !! stat_name)))
    (_union_keys first second).

Definition merge_game_stats
    (first second : gmap string (gmap string (gmap string Z)))
  : gmap string (gmap string (gmap string Z)) :=
  dict_of_keys
    (λ player_name, _merge_player_stats (default ∅ (first !! player_name))
                                        (default ∅ (second !! player_name)))
    (_union_keys first second).

(** ** Invariants of aggregate statistics

    [all_counts P s]: every count stored in [s] satisfies [P].  A
    frequency table holds non-negative counts; a table built by counting
    frames or by adding tables stores positive counts only. *)

Definition all_counts (P : Z → Prop)
    (s : gmap string (gmap string (gmap string Z))) : Prop :=
  map_Forall (λ (_ : string) (tables : gmap string (gmap string Z)),
    map_Forall (λ (_ : string) (counter : gmap string Z),
      map_Forall (λ _ count, P count) counter) tables) s.

(** The count stored for one category value, if any. *)
Definition count_at (s : gmap string (gmap string (gmap string Z)))
    (player axis value : string) : option Z :=
  match s !! player with
  | Some tables =>
      match tables !! axis with
      | Some counter => counter !! value
      | None => None
      end
  | None => None
  end.

Definition nonneg_counts := all_counts (λ count, 0 ≤ count).
Definition positive_counts := all_counts (λ count, 0 < count).

(** ** The replay parser's interface

    The parser library ([slippi]) is not part of the repository; the
    program reads the following from it.  [Button] is the enumeration of
    physical buttons, with the member's [name] and the integer that
    [sorted] compares; [pressed] is the method listing the held buttons
    of a [physical] value.  [ActionState] is the enumeration of
    fine-grained states, of which the program names six. *)

Class Slippi := {
  Button : Type;
  button_name : Button → string;
  button_value : Button → Z;
  Physical : Type;
  pressed : Physical → list Button;
  ActionState : Type;
  ActionState_eq_dec :: EqDecision ActionState;
  ActionState_countable :: Countable ActionState;
  state_name : ActionState → string;
  WAIT : ActionState;
  SQUAT_WAIT : ActionState;
  WALK_FAST : ActionState;
  WALK_MIDDLE : ActionState;
  WALK_SLOW : ActionState;
  DASH : ActionState;
  InGameCharacter : Type;
  character_name : InGameCharacter → string;
}.

Section Model.
Context `{Slippi}.

(** [event.Frame.Port.Data]: only the fields the program reads. *)
Record Pre := { physical : Physical }.
Record Post := { state : ActionState; hit_stun : Z }.
Record Data := { pre : Pre; post : Post }.

(** [event.Frame.Port]: [leader] is read, the follower is not. *)
Record Port := { leader : Data }.

(** [event.Frame]: one entry per slot, [None] for an empty slot. *)
Record Frame := { ports : list (option Port) }.

(** A metadata player: [netplay_name] may be [None]; [characters] is the
    items of the character-usage dictionary in its order. *)
Record Player := {
  netplay_name : option string;
  characters : list (InGameCharacter * Z);
}.

(** [sl.Game]: [players] is [metadata.players], [None] for an empty slot. *)
Record Game := { frames : list Frame; players : list (option Player) }.

(** ** STATE_GROUPS *)

Definition STATE_GROUPS : list (gset ActionState * string) :=
  dict_display [
    ({[ WAIT; SQUAT_WAIT ]}, "WAIT");
    ({[ WALK_FAST; WALK_MIDDLE; WALK_SLOW ]}, "WALK");
    ({[ DASH ]}, "DASH")
  ].

(** ** Feature extractors *)

(** [sorted(buttons)]: a stable sort on the members' integer values. *)
Fixpoint sorted_insert (b : Button) (l : list Button) : list Button :=
  match l with
  | [] => [b]
  | c :: l' =>
      if decide (button_value c ≤ button_value b)
      then c :: sorted_insert b l'
      else b :: c :: l'
  end.

Definition sorted (l : list Button) : list Button :=
  foldl (λ acc b, sorted_insert b acc) [] l.

(** The order [sorted] puts the buttons in. *)
Definition value_le (b c : Button) : Prop := button_value b ≤ button_value c.

(** The argument of [_fmt_buttons] is a list (or tuple) of buttons or a
    single enumeration member, which is truthy when its value is not 0. *)
Definition _fmt_buttons (buttons : list Button + Button) : string :=
  match buttons with
  | inl (b :: l) => String.concat "," (button_name <$> sorted (b :: l))
  | inl [] => "(no input)"
  | inr b => if decide (button_value b ≠ 0) then button_name b else "(no input)"
  end.

Definition _buttons (port_data : Data) : string :=
  _fmt_buttons (inl (pressed (physical (pre port_data)))).

Definition _hitstun_buttons (port_data : Data) : string :=
  if decide (hit_stun (post port_data) > 0)
  then _buttons port_data
  else "(not in hitstun)".

(** The loop over [STATE_GROUPS.items()]. *)
Fixpoint state_group_loop (items : list (gset ActionState * string))
    (s : ActionState) : string :=
  match items with
  | [] => "OTHER"
  | (groupset, name) :: rest =>
      if decide (s ∈ groupset) then name else state_group_loop rest s
  end.

Definition _state_group (port_data : Data) : string :=
  state_group_loop STATE_GROUPS (state (post port_data)).

Definition _state (port_data : Data) : string :=
  state_name (state (post port_data)).

Definition FRAME_DATA_HANDLERS : list (string * (Data → string)) :=
  [ ("buttons", _buttons);
    ("hitstun_buttons", _hitstun_buttons);
    ("state_group", _state_group);
    ("full_state", _state) ].

(** ** Frame classifier *)

Definition _handle_frame_port (port : Port) : gmap string string :=
  foldl (λ d nh, <[nh.1 := nh.2 (leader port)]> d) ∅ FRAME_DATA_HANDLERS.

Definition _handle_frame (frame : Frame) : gmap nat (gmap string string) :=
  foldl (λ d ip, match ip.2 with
                 | Some frame_port => <[ip.1 := _handle_frame_port frame_port]> d
                 | None => d
                 end)
        ∅ (enumerate (ports frame)).

(** ** Reporter

    A printed row keeps the quotient [100*count/total] as its numerator
    and denominator; the rendering of the float is left out. *)

Record Row := { numerator : Z; denominator : Z; stat : string }.

Inductive Line :=
  | PlayerLine (player_name : string)
  | AxisLine (stats_key : string)
  | RowsBlock (rows : list Row).

Definition percent_row (total : Z) (sc : string * Z) : result Row :=
  if decide (total = 0) then raise ZeroDivisionError
  else ret {| numerator := 100 * sc.2; denominator := total; stat := sc.1 |}.

Definition _print_player_stats (player_name : string)
    (counters : gmap string (gmap string Z)) : result (list Line) :=
  do blocks <- for_each (λ kc : string * gmap string Z,
      let total := counter_total kc.2 in
      do rows <- for_each (percent_row total) (take 10 (most_common kc.2));
      ret [AxisLine kc.1; RowsBlock rows])
    (map_to_list counters);
  ret (PlayerLine player_name :: concat blocks).

(** ** Match summarizer *)

Definition _summarize_player_frames (player_name : string)
    (frame_stats : list (gmap string string)) (log : bool)
  : result (gmap string (gmap string Z)) :=
  do first <- first_item frame_stats;
  let stats_keys := (map_to_list first).*1 in
  do counters <- for_each (λ stats_key,
      do values <- for_each (λ fs, getitem fs stats_key) frame_stats;
      ret (stats_key, Counter values))
    stats_keys;
  let counters : gmap string (gmap string Z) := list_to_map counters in
  do _ <- (if log then _print_player_stats player_name counters else ret []);
  ret counters.

(** [f"{x}"] of an optional string. *)
Definition format_optional (x : option string) : string :=
  match x with
  | Some s => s
  | None => "None"
  end.

Definition player_key_of (player : Player) : result string :=
  do c <- first_item (characters player);
  ret (format_optional (netplay_name player) +:+ " (" +:+ character_name c.1 +:+ ")").

Definition game_summary (g : Game)
  : result (gmap string (gmap string (gmap string Z))) :=
  let framewise_summaries := _handle_frame <$> frames g in
  for_fold (λ player_summaries ip,
      do player_key <- player_key_of ip.2;
      do frame_stats <- for_each (λ f, getitem f ip.1) framewise_summaries;
      do counters <- _summarize_player_frames player_key frame_stats false;
      ret (<[player_key := counters]> player_summaries))
    ∅ (enumerate (omap id (players g))).

(** ** Batch driver

    [matched] is the list [glob.glob(logs_dir)]; [load] is the parser's
    constructor, returning the exception's text when it fails. *)

Inductive LoadEvent :=
  | Yield (game : Game)
  | Print (message : string).

Definition load_all (load : string → string + Game) (matched : list string)
  : list LoadEvent :=
  (λ gamefile,
     match load gamefile with
     | inr game => Yield game
     | inl e => Print ("Unable to load " +:+ gamefile +:+ ": " +:+ e)
     end) <$> take 5 matched.

Definition yielded (events : list LoadEvent) : list Game :=
  omap (λ ev, match ev with Yield game => Some game | Print _ => None end) events.

(** The loop that folds every yielded game into [combined_stats]. *)
Definition combined_stats (games : list Game)
  : result (gmap string (gmap string (gmap string Z))) :=
  for_fold (λ combined game,
      do this_game_stats <- game_summary game;
      ret (merge_game_stats combined this_game_stats))
    ∅ games.

Definition report (combined : gmap string (gmap string (gmap string Z)))
  : result (list Line) :=
  do blocks <- for_each (λ ps : string * gmap string (gmap string Z),
                           _print_player_stats ps.1 ps.2)
                        (map_to_list combined);
  ret (concat blocks).

End Model.

(** ** A sample parser

    An instance of the interface on which the model is run: buttons are
    the controller's bit flags, a [physical] value is the bit mask, and
    states and characters are a few of the library's members. *)

Module Melee.

Inductive button :=
  | DPAD_LEFT | DPAD_RIGHT | DPAD_DOWN | DPAD_UP
  | BTN_Z | BTN_R | BTN_L | BTN_A | BTN_B | BTN_X | BTN_Y | START.

Definition all_buttons : list button :=
  [DPAD_LEFT; DPAD_RIGHT; DPAD_DOWN; DPAD_UP;
   BTN_Z; BTN_R; BTN_L; BTN_A; BTN_B; BTN_X; BTN_Y; START].

Definition name (b : button) : string :=
  match b with
  | DPAD_LEFT => "DPAD_LEFT" | DPAD_RIGHT => "DPAD_RIGHT"
  | DPAD_DOWN => "DPAD_DOWN" | DPAD_UP => "DPAD_UP"
  | BTN_Z => "Z" | BTN_R => "R" | BTN_L => "L" | BTN_A => "A"
  | BTN_B => "B" | BTN_X => "X" | BTN_Y => "Y" | START => "START"
  end.

Definition value (b : button) : Z :=
  match b with
  | DPAD_LEFT => 1 | DPAD_RIGHT => 2 | DPAD_DOWN => 4 | DPAD_UP => 8
  | BTN_Z => 16 | BTN_R => 32 | BTN_L => 64 | BTN_A => 256
  | BTN_B => 512 | BTN_X => 1024 | BTN_Y => 2048 | START => 4096
  end.

Definition held (mask : Z) : list button :=
  filter (λ b, Z.land mask (value b) ≠ 0) all_buttons.

Definition action_name (s : Z) : string :=
  match s with
  | 14 => "WAIT" | 15 => "WALK_SLOW" | 16 => "WALK_MIDDLE"
  | 17 => "WALK_FAST" | 20 => "DASH" | 21 => "RUN" | 40 => "SQUAT_WAIT"
  | _ => "UNNAMED"
  end.

#[global] Instance parser : Slippi := {|
  Button := button;
  button_name := name;
  button_value := value;
  Physical := Z;
  pressed := held;
  ActionState := Z;
  state_name := action_name;
  WAIT := 14;
  SQUAT_WAIT := 40;
  WALK_FAST := 17;
  WALK_MIDDLE := 16;
  WALK_SLOW := 15;
  DASH := 20;
  InGameCharacter := string;
  character_name := id;
|}.

Definition data (mask : Z) (s : Z) (stun : Z) : Data :=
  {| pre := {| physical := mask |}; post := {| state := s; hit_stun := stun |} |}.

Definition slot (mask : Z) (s : Z) (stun : Z) : option Port :=
  Some {| leader := data mask s stun |}.

Definition player (n : string) (c : string) : option Player :=
  Some {| netplay_name := Some n; characters := [(c, 1)] |}.

(** Three frames of one player: two of WAIT without stun, then DASH with
    stun 4 and the buttons A and L held. *)
Definition three_frames : Game :=
  {| frames := [ {| ports := [slot 0 14 0] |};
                 {| ports := [slot 0 14 0] |};
                 {| ports := [slot 320 20 4] |} ];
     players := [player "P1" "MARTH"] |}.

(** The summary of [three_frames]. *)
Definition three_frames_summary : gmap string (gmap string (gmap string Z)) :=
  {[ "P1 (MARTH)" :=
       {[ "buttons" := {[ "(no input)" := 2; "L,A" := 1 ]};
          "hitstun_buttons" := {[ "(not in hitstun)" := 2; "L,A" := 1 ]};
          "state_group" := {[ "WAIT" := 2; "DASH" := 1 ]};
          "full_state" := {[ "WAIT" := 2; "DASH" := 1 ]} ]} ]}.

(** No frame, one player. *)
Definition no_frames : Game :=
  {| frames := []; players := [player "P1" "MARTH"] |}.

(** Slots 0 and 2 occupied, slot 1 empty. *)
Definition slots_0_and_2 : Game :=
  {| frames := [ {| ports := [slot 0 14 0; None; slot 256 20 0; None] |} ];
     players := [player "P1" "MARTH"; None; player "P3" "FOX"; None] |}.

(** Slots 0 and 1 occupied. *)
Definition slots_0_and_1 : Game :=
  {| frames := [ {| ports := [slot 0 14 0; slot 256 20 0; None; None] |} ];
     players := [player "P1" "MARTH"; player "P2" "FOX"; None; None] |}.

End Melee.

(** Aggregate statistics of the merge scenario. *)
Module Scenario.

Definition first : gmap string (gmap string (gmap string Z)) :=
  {[ "P1" := {[ "full_state" := {[ "WAIT" := 2 ]} ]} ]}.

Definition second : gmap string (gmap string (gmap string Z)) :=
  {[ "P1" := {[ "full_state" := {[ "DASH" := 1 ]} ]};
     "P2" := {[ "full_state" := {[ "WAIT" := 5 ]} ]} ]}.

Definition third : gmap string (gmap string (gmap string Z)) :=
  {[ "P2" := {[ "full_state" := {[ "WAIT" := 1; "DASH" := 3 ]};
                "buttons" := {[ "(no input)" := 4 ]} ]} ]}.

Definition merged : gmap string (gmap string (gmap string Z)) :=
  {[ "P1" := {[ "full_state" := {[ "WAIT" := 2; "DASH" := 1 ]} ]};
     "P2" := {[ "full_state" := {[ "WAIT" := 5 ]} ]} ]}.

(** A table with a stored count of zero, and tables with a negative count. *)
Definition zero_count : gmap string (gmap string (gmap string Z)) :=
  {[ "P1" := {[ "full_state" := {[ "WAIT" := 0 ]} ]} ]}.

Definition minus_one : gmap string (gmap string (gmap string Z)) :=
  {[ "P1" := {[ "full_state" := {[ "WAIT" := -1 ]} ]} ]}.

Definition plus_one : gmap string (gmap string (gmap string Z)) :=
  {[ "P1" := {[ "full_state" := {[ "WAIT" := 1 ]} ]} ]}.

End Scenario.

(** ** Notions used to state what the program computes *)

(** The total stored for one player and axis, 0 when there is no table. *)
Definition axis_total (s : gmap string (gmap string (gmap string Z)))
    (player axis : string) : Z :=
  match s !! player with
  | Some tables =>
      match tables !! axis with
      | Some counter => counter_total counter
      | None => 0
      end
  | None => 0
  end.

(** A string without a comma. *)
Fixpoint comma_free (s : string) : Prop :=
  match s with
  | EmptyString => True
  | String c s' => c ≠ ","%char ∧ comma_free s'
  end.

#[global] Instance exn_eq_dec : EqDecision exn.
Proof. solve_decision. Defined.

(** A round of a loop that computes an item and stores it under its key. *)
Definition store_entry {A V} (entry : A → result (string * V))
    (s : gmap string V) (a : A) : result (gmap string V) :=
  do kv <- entry a; ret (<[kv.1 := kv.2]> s).

Section Views.
Context `{Slippi}.

(** What a handler gives for slot [i] of a frame, if the slot is occupied. *)
Definition slot_value (handler : Data → string) (i : nat) (frame : Frame)
  : option string :=
  match ports frame !! i with
  | Some (Some frame_port) => Some (handler (leader frame_port))
  | _ => None
  end.

(** What one round of the loop of [game_summary] computes before it
    stores it: the player's key and tables. *)
Definition player_entry (g : Game) (ip : nat * Player)
  : result (string * gmap string (gmap string Z)) :=
  do player_key <- player_key_of ip.2;
  do frame_stats <- for_each (λ f, getitem f ip.1) (_handle_frame <$> frames g);
  do counters <- _summarize_player_frames player_key frame_stats false;
  ret (player_key, counters).

(** The number of frames a match adds to the total of a player's axis:
    its frames, when the key is the key of one of its present players
    and the axis is the name of a handler. *)
Definition frames_counted (g : Game) (player axis : string) : Z :=
  if decide (axis ∈ FRAME_DATA_HANDLERS.*1
             ∧ Exists (λ pl, player_key_of pl = inr player) (omap id (players g)))
  then Z.of_nat (length (frames g))
  else 0.

End Views.

(** ** The per-port list functions

    [states], [hitstun_buttons] and [buttons] index [f.ports[port]] with
    an integer, which counts from the end when negative, and read
    [.leader] of the result, which an empty slot does not have. *)

Module Legacy.

Inductive error := IndexError | AttributeError.

(** [l[i]] for an integer [i]. *)
Definition list_item {A} (l : list A) (i : Z) : option A :=
  if decide (0 ≤ i) then l !! Z.to_nat i
  else if decide (- Z.of_nat (length l) ≤ i)
       then l !! Z.to_nat (Z.of_nat (length l) + i)
       else None.

(** [[f(x) for x in l]] where [f] may raise. *)
Fixpoint comprehension {A B} (f : A → error + B) (l : list A)
  : error + list B :=
  match l with
  | [] => inr []
  | x :: l' =>
      match f x with
      | inl e => inl e
      | inr y =>
          match comprehension f l' with
          | inl e => inl e
          | inr ys => inr (y :: ys)
          end
      end
  end.

Section Functions.
Context `{Slippi}.

(** [f.ports[port].leader]. *)
Definition port_leader (f : Frame) (port : Z) : error + Data :=
  match list_item (ports f) port with
  | None => inl IndexError
  | Some None => inl AttributeError
  | Some (Some frame_port) => inr (leader frame_port)
  end.

Definition states (game : Game) (port : Z) : error + list ActionState :=
  comprehension (λ f, match port_leader f port with
                      | inl e => inl e
                      | inr d => inr (state (post d))
                      end) (frames game).

(** The condition [post.hit_stun] is truthy when the counter is not 0. *)
Definition hitstun_buttons (game : Game) (port : Z)
  : error + list (list Button) :=
  comprehension (λ f, match port_leader f port with
                      | inl e => inl e
                      | inr d =>
                          if decide (hit_stun (post d) ≠ 0)
                          then inr (sorted (pressed (physical (pre d))))
                          else inr []
                      end) (frames game).

Definition buttons (game : Game) (port : Z) : error + list (list Button) :=
  comprehension (λ f, match port_leader f port with
                      | inl e => inl e
                      | inr d => inr (sorted (pressed (physical (pre d))))
                      end) (frames game).

End Functions.

End Legacy.

(** Sample data for the further properties. *)
Module Samples.

(** The summary of [Melee.slots_0_and_1]. *)
Definition two_players_summary : gmap string (gmap string (gmap string Z)) :=
  {[ "P1 (MARTH)" :=
       {[ "buttons" := {[ "(no input)" := 1 ]};
          "hitstun_buttons" := {[ "(not in hitstun)" := 1 ]};
          "state_group" := {[ "WAIT" := 1 ]};
          "full_state" := {[ "WAIT" := 1 ]} ]};
     "P2 (FOX)" :=
       {[ "buttons" := {[ "A" := 1 ]};
          "hitstun_buttons" := {[ "(not in hitstun)" := 1 ]};
          "state_group" := {[ "DASH" := 1 ]};
          "full_state" := {[ "DASH" := 1 ]} ]} ]}.

(** The running total after [Melee.three_frames] and
    [Melee.slots_0_and_1]. *)
Definition two_games_total : gmap string (gmap string (gmap string Z)) :=
  {[ "P1 (MARTH)" :=
       {[ "buttons" := {[ "(no input)" := 3; "L,A" := 1 ]};
          "hitstun_buttons" := {[ "(not in hitstun)" := 3; "L,A" := 1 ]};
          "state_group" := {[ "WAIT" := 3; "DASH" := 1 ]};
          "full_state" := {[ "WAIT" := 3; "DASH" := 1 ]} ]};
     "P2 (FOX)" :=
       {[ "buttons" := {[ "A" := 1 ]};
          "hitstun_buttons" := {[ "(not in hitstun)" := 1 ]};
          "state_group" := {[ "DASH" := 1 ]};
          "full_state" := {[ "DASH" := 1 ]} ]} ]}.

(** Three classified frames of one axis, and their tables. *)
Definition frame_stats : list (gmap string string) :=
  [ {[ "full_state" := "WAIT" ]};
    {[ "full_state" := "DASH" ]};
    {[ "full_state" := "WAIT" ]} ].

Definition frame_stats_tables : gmap string (gmap string Z) :=
  {[ "full_state" := {[ "WAIT" := 2; "DASH" := 1 ]} ]}.

End Samples.

(** * Properties *)

(** ** The error monad and loops *)

Lemma for_each_inr {A B} (f : A → result B) l ys :
  for_each f l = inr ys ↔ Forall2 (λ x y, f x = inr y) l ys.
Proof.
  revert ys. induction l as [|x l IH]; intros ys; simpl.
  - split.
    + intros [= <-]. constructor.
    + intros Hf. inversion Hf. reflexivity.
  - split.
    + destruct (f x) as [e|y] eqn:Hx; simpl; [discriminate|].
      destruct (for_each f l) as [e|ys'] eqn:Hl; simpl; [discriminate|].
      intros [= <-]. constructor; [exact Hx|]. apply IH. reflexivity.
    + intros Hf. inversion Hf as [|? y ? ys' Hxy Hrest]; subst.
      simpl in Hxy. rewrite Hxy. simpl.
      apply IH in Hrest. rewrite Hrest. reflexivity.
Qed.

Lemma for_each_length {A B} (f : A → result B) l ys :
  for_each f l = inr ys → length ys = length l.
Proof.
  intros Hf. apply for_each_inr in Hf. symmetry. eapply Forall2_length, Hf.
Qed.

Lemma for_each_inr_elem_r {A B} (f : A → result B) l ys y :
  for_each f l = inr ys → y ∈ ys → ∃ x, x ∈ l ∧ f x = inr y.
Proof.
  intros Hf. apply for_each_inr in Hf.
  induction Hf as [|x y' l ys Hxy Hrest IH]; intros Hy.
  - apply elem_of_nil in Hy. destruct Hy.
  - apply elem_of_cons in Hy as [->|Hy].
    + exists x. split; [left|exact Hxy].
    + destruct (IH Hy) as (x' & Hx' & Hfx'). exists x'. split; [right|]; assumption.
Qed.

Lemma for_each_inr_elem_l {A B} (f : A → result B) l ys x :
  for_each f l = inr ys → x ∈ l → ∃ y, y ∈ ys ∧ f x = inr y.
Proof.
  intros Hf. apply for_each_inr in Hf.
  induction Hf as [|x' y l ys Hxy Hrest IH]; intros Hx.
  - apply elem_of_nil in Hx. destruct Hx.
  - apply elem_of_cons in Hx as [->|Hx].
    + exists y. split; [left|exact Hxy].
    + destruct (IH Hx) as (y' & Hy' & Hfx). exists y'. split; [right|]; assumption.
Qed.

Lemma for_fold_total {A S} (body : S → A → result S) l s0 :
  (∀ s x, x ∈ l → ∃ s', body s x = inr s') →
  ∃ s, for_fold body s0 l = inr s.
Proof.
  revert s0. induction l as [|x l IH]; intros s0 Hall; simpl.
  - eexists. reflexivity.
  - destruct (Hall s0 x) as [s1 Hs1]; [left|]. rewrite Hs1. simpl.
    apply IH. intros s y Hy. apply Hall. right. exact Hy.
Qed.

Lemma for_each_total {A B} (f : A → result B) l :
  (∀ x, x ∈ l → ∃ y, f x = inr y) → ∃ ys, for_each f l = inr ys.
Proof.
  induction l as [|x l IH]; intros Hall; simpl.
  - eexists. reflexivity.
  - destruct (Hall x) as [y Hy]; [left|].
    destruct IH as [ys Hys]; [intros z Hz; apply Hall; right; exact Hz|].
    rewrite Hy, Hys. simpl. eexists. reflexivity.
Qed.

Lemma for_fold_invariant {A S} (P : S → Prop) (body : S → A → result S) l :
  ∀ s0 s,
    P s0 →
    (∀ s1 x s2, P s1 → x ∈ l → body s1 x = inr s2 → P s2) →
    for_fold body s0 l = inr s → P s.
Proof.
  induction l as [|x l IH]; intros s0 s H0 Hstep; simpl.
  - intros [= <-]. exact H0.
  - destruct (body s0 x) as [e|s1] eqn:Hb; simpl; [discriminate|].
    apply IH.
    + eapply Hstep; [exact H0|left|exact Hb].
    + intros s2 y s3 H2 Hy. apply Hstep; [exact H2|right; exact Hy].
Qed.

(** ** Dictionaries built from a list of keys *)

Lemma lookup_dict_of_keys {V} (f : string → V) keys k :
  dict_of_keys f keys !! k = if decide (k ∈ keys) then Some (f k) else None.
Proof.
  unfold dict_of_keys.
  assert (∀ d : gmap string V,
    foldl (λ d k, <[k := f k]> d) d keys !! k
    = if decide (k ∈ keys) then Some (f k) else d !! k) as Hgen.
  { induction keys as [|k0 keys IH]; intros d.
    - cbn [foldl]. case_decide as Hin; [|reflexivity].
      apply elem_of_nil in Hin. destruct Hin.
    - cbn [foldl]. rewrite IH.
      destruct (decide (k ∈ keys)) as [Hin|Hnin].
      + rewrite decide_True; [reflexivity|]. right. exact Hin.
      + destruct (decide (k = k0)) as [->|Hne].
        * rewrite decide_True by left. apply lookup_insert_eq.
        * rewrite decide_False.
          -- apply lookup_insert_ne. congruence.
          -- intros Hc. apply elem_of_cons in Hc. tauto. }
  rewrite Hgen. destruct (decide (k ∈ keys)); [reflexivity|apply lookup_empty].
Qed.

Lemma elem_of_union_keys {V W} (first : gmap string V) (second : gmap string W) k :
  k ∈ _union_keys first second ↔ is_Some (first !! k) ∨ is_Some (second !! k).
Proof.
  unfold _union_keys. rewrite elem_of_elements, elem_of_union, !elem_of_dom.
  reflexivity.
Qed.

(** The shape shared by both merge functions: a key of either side maps
    to [f] of the two values, a missing value being [e]. *)
Lemma lookup_merge_by_keys {V} (f : V → V → V) (e : V) (first second : gmap string V) k :
  dict_of_keys (λ k, f (default e (first !! k)) (default e (second !! k)))
               (_union_keys first second) !! k
  = match first !! k, second !! k with
    | None, None => None
    | x, y => Some (f (default e x) (default e y))
    end.
Proof.
  rewrite lookup_dict_of_keys.
  destruct (decide (k ∈ _union_keys first second)) as [Hin|Hnin].
  - apply elem_of_union_keys in Hin.
    destruct (first !! k), (second !! k); try reflexivity.
    destruct Hin as [[? [=]]|[? [=]]].
  - destruct (first !! k) eqn:Hf.
    + exfalso. apply Hnin, elem_of_union_keys. left. rewrite Hf. eauto.
    + destruct (second !! k) eqn:Hs; [|reflexivity].
      exfalso. apply Hnin, elem_of_union_keys. right. rewrite Hs. eauto.
Qed.

Lemma merge_by_keys_comm {V} (f : V → V → V) (e : V) (first second : gmap string V) :
  (∀ x y, f x y = f y x) →
  dict_of_keys (λ k, f (default e (first !! k)) (default e (second !! k)))
               (_union_keys first second)
  = dict_of_keys (λ k, f (default e (second !! k)) (default e (first !! k)))
               (_union_keys second first).
Proof.
  intros Hcomm. apply map_eq. intros k. rewrite !lookup_merge_by_keys.
  destruct (first !! k), (second !! k); simpl; try reflexivity;
    f_equal; apply Hcomm.
Qed.

Lemma merge_by_keys_assoc {V} (P : V → Prop) (f : V → V → V) (e : V)
    (a b c : gmap string V) :
  P e → f e e = e →
  (∀ x y z, P x → P y → P z → f (f x y) z = f x (f y z)) →
  map_Forall (λ _, P) a → map_Forall (λ _, P) b → map_Forall (λ _, P) c →
  let m first second :=
    dict_of_keys (λ k, f (default e (first !! k)) (default e (second !! k)))
                 (_union_keys first second) in
  m (m a b) c = m a (m b c).
Proof.
  intros He Hee Hassoc Ha Hb Hc m. subst m. simpl.
  apply map_eq. intros k.
  pose proof (lookup_merge_by_keys f e a b k) as Hab.
  pose proof (lookup_merge_by_keys f e b c k) as Hbc.
  set (ab := dict_of_keys _ (_union_keys a b)) in *.
  set (bc := dict_of_keys _ (_union_keys b c)) in *.
  rewrite (lookup_merge_by_keys f e ab c), (lookup_merge_by_keys f e a bc).
  rewrite Hab, Hbc. clear Hab Hbc.
  assert (∀ (d : gmap string V), map_Forall (λ _, P) d → P (default e (d !! k))) as Hd.
  { intros d Hall. destruct (d !! k) eqn:Hk; simpl; [|exact He].
    apply (Hall k). exact Hk. }
  specialize (Hd a Ha) as Hpa. specialize (Hd b Hb) as Hpb.
  specialize (Hd c Hc) as Hpc.
  destruct (a !! k), (b !! k), (c !! k); simpl in *;
    rewrite ?Hee; try reflexivity; f_equal;
    first [ apply Hassoc; assumption
          | rewrite (Hassoc _ e e), Hee by assumption; reflexivity
          | rewrite <- (Hassoc e e _), Hee by assumption; reflexivity ].
Qed.

(** ** Adding counters *)

Lemma lookup_Counter_add first second k :
  Counter_add first second !! k = Counter_add_item (first !! k) (second !! k).
Proof.
  unfold Counter_add. rewrite lookup_merge.
  destruct (first !! k), (second !! k); reflexivity.
Qed.

Lemma Counter_add_item_comm x y : Counter_add_item x y = Counter_add_item y x.
Proof.
  destruct x as [a|], y as [b|]; unfold Counter_add_item; simpl;
    try reflexivity; rewrite Z.add_comm; reflexivity.
Qed.

Lemma Counter_add_comm first second :
  Counter_add first second = Counter_add second first.
Proof.
  apply map_eq. intros k. rewrite !lookup_Counter_add.
  apply Counter_add_item_comm.
Qed.

Lemma Counter_add_empty : Counter_add ∅ ∅ = ∅.
Proof.
  apply map_eq. intros k. rewrite lookup_Counter_add, lookup_empty. reflexivity.
Qed.

Lemma Counter_add_item_assoc (x y z : option Z) :
  (∀ a, x = Some a → 0 ≤ a) → (∀ b, y = Some b → 0 ≤ b) →
  (∀ c, z = Some c → 0 ≤ c) →
  Counter_add_item (Counter_add_item x y) z
  = Counter_add_item x (Counter_add_item y z).
Proof.
  intros Hx Hy Hz.
  destruct x as [a|], y as [b|], z as [c|];
    try specialize (Hx _ eq_refl); try specialize (Hy _ eq_refl);
    try specialize (Hz _ eq_refl);
    unfold Counter_add_item; simpl; repeat (case_decide; simpl);
    first [reflexivity | f_equal; lia | exfalso; simpl in *; lia].
Qed.

Lemma Counter_add_assoc a b c :
  map_Forall (λ _ count, 0 ≤ count) a →
  map_Forall (λ _ count, 0 ≤ count) b →
  map_Forall (λ _ count, 0 ≤ count) c →
  Counter_add (Counter_add a b) c = Counter_add a (Counter_add b c).
Proof.
  intros Ha Hb Hc. apply map_eq. intros k. rewrite !lookup_Counter_add.
  apply Counter_add_item_assoc; intros v Hv; [eapply Ha|eapply Hb|eapply Hc];
    exact Hv.
Qed.

(** Whatever the operands, a sum of counters stores positive counts. *)
Lemma Counter_add_positive first second :
  map_Forall (λ _ count, 0 < count) (Counter_add first second).
Proof.
  intros k v. rewrite lookup_Counter_add.
  destruct (first !! k), (second !! k); unfold Counter_add_item; simpl;
    try discriminate; case_decide; intros [= <-]; lia.
Qed.

Lemma Counter_add_empty_l counter :
  map_Forall (λ _ count, 0 < count) counter → Counter_add ∅ counter = counter.
Proof.
  intros Hpos. apply map_eq. intros k. rewrite lookup_Counter_add, lookup_empty.
  destruct (counter !! k) as [v|] eqn:Hk; [|reflexivity].
  apply Hpos in Hk. unfold Counter_add_item. simpl.
  rewrite decide_True by lia. reflexivity.
Qed.

(** ** Merging statistics *)

Lemma lookup_merge_player_stats first second k :
  _merge_player_stats first second !! k
  = match first !! k, second !! k with
    | None, None => None
    | x, y => Some (Counter_add (default ∅ x) (default ∅ y))
    end.
Proof. apply (lookup_merge_by_keys Counter_add ∅). Qed.

Lemma lookup_merge_game_stats first second k :
  merge_game_stats first second !! k
  = match first !! k, second !! k with
    | None, None => None
    | x, y => Some (_merge_player_stats (default ∅ x) (default ∅ y))
    end.
Proof. apply (lookup_merge_by_keys _merge_player_stats ∅). Qed.

Lemma merge_player_stats_comm first second :
  _merge_player_stats first second = _merge_player_stats second first.
Proof. apply (merge_by_keys_comm Counter_add ∅), Counter_add_comm. Qed.

Lemma merge_player_stats_empty : _merge_player_stats ∅ ∅ = ∅.
Proof.
  apply map_eq. intros k. rewrite lookup_merge_player_stats, lookup_empty.
  reflexivity.
Qed.

Lemma merge_player_stats_assoc a b c :
  map_Forall (λ (_ : string) (counter : gmap string Z), map_Forall (λ _ count, 0 ≤ count) counter) a →
  map_Forall (λ (_ : string) (counter : gmap string Z), map_Forall (λ _ count, 0 ≤ count) counter) b →
  map_Forall (λ (_ : string) (counter : gmap string Z), map_Forall (λ _ count, 0 ≤ count) counter) c →
  _merge_player_stats (_merge_player_stats a b) c
  = _merge_player_stats a (_merge_player_stats b c).
Proof.
  intros Ha Hb Hc.
  apply (merge_by_keys_assoc
           (λ counter : gmap string Z, map_Forall (λ _ count, 0 ≤ count) counter)
           Counter_add ∅); try assumption.
  - apply map_Forall_empty.
  - apply Counter_add_empty.
  - intros x y z. apply Counter_add_assoc.
Qed.

Lemma merge_game_stats_comm first second :
  merge_game_stats first second = merge_game_stats second first.
Proof.
  apply (merge_by_keys_comm _merge_player_stats ∅), merge_player_stats_comm.
Qed.

Lemma merge_game_stats_assoc a b c :
  nonneg_counts a → nonneg_counts b → nonneg_counts c →
  merge_game_stats (merge_game_stats a b) c
  = merge_game_stats a (merge_game_stats b c).
Proof.
  intros Ha Hb Hc.
  apply (merge_by_keys_assoc
           (λ tables : gmap string (gmap string Z),
              map_Forall (λ (_ : string) (counter : gmap string Z),
                map_Forall (λ _ count, 0 ≤ count) counter) tables)
           _merge_player_stats ∅); try assumption.
  - apply map_Forall_empty.
  - apply merge_player_stats_empty.
  - intros x y z. apply merge_player_stats_assoc.
Qed.

Lemma positive_nonneg_counts s : positive_counts s → nonneg_counts s.
Proof.
  intros Hs player tables Hp axis counter Ha value count Hv.
  specialize (Hs player tables Hp axis counter Ha value count Hv).
  simpl in *. lia.
Qed.

(** Every count of a merge is positive, whatever went in. *)
Lemma merge_game_stats_positive first second :
  positive_counts (merge_game_stats first second).
Proof.
  intros player tables Hp axis counter Ha.
  rewrite lookup_merge_game_stats in Hp.
  assert (∃ x y, tables = _merge_player_stats x y) as (x & y & ->).
  { destruct (first !! player), (second !! player); simplify_eq; eauto. }
  rewrite lookup_merge_player_stats in Ha.
  assert (∃ u v, counter = Counter_add u v) as (u & v & ->).
  { destruct (x !! axis), (y !! axis); simplify_eq; eauto. }
  apply Counter_add_positive.
Qed.

Lemma merge_player_stats_empty_l tables :
  map_Forall (λ (_ : string) (counter : gmap string Z), map_Forall (λ _ count, 0 < count) counter) tables →
  _merge_player_stats ∅ tables = tables.
Proof.
  intros Hpos. apply map_eq. intros k.
  rewrite lookup_merge_player_stats, lookup_empty.
  destruct (tables !! k) as [c|] eqn:Hk; [|reflexivity].
  simpl. f_equal. apply Counter_add_empty_l. eapply Hpos, Hk.
Qed.

Lemma merge_game_stats_empty_l s :
  positive_counts s → merge_game_stats ∅ s = s.
Proof.
  intros Hpos. apply map_eq. intros k.
  rewrite lookup_merge_game_stats, lookup_empty.
  destruct (s !! k) as [t|] eqn:Hk; [|reflexivity].
  simpl. f_equal. apply merge_player_stats_empty_l. eapply Hpos, Hk.
Qed.

(** C3: cross-match aggregation is commutative and associative on
    aggregate statistics, whose counts are non-negative:
    [merge(A, B) = merge(B, A)],
    [merge(merge(A, B), C) = merge(A, merge(B, C))], and the latter is
    also [merge(B, merge(A, C))]. *)
Theorem merge_game_stats_commutative_associative A B C :
  nonneg_counts A → nonneg_counts B → nonneg_counts C →
  merge_game_stats A B = merge_game_stats B A
  ∧ merge_game_stats (merge_game_stats A B) C
    = merge_game_stats A (merge_game_stats B C)
  ∧ merge_game_stats A (merge_game_stats B C)
    = merge_game_stats B (merge_game_stats A C).
Proof.
  intros HA HB HC. split; [apply merge_game_stats_comm|]. split.
  - apply merge_game_stats_assoc; assumption.
  - rewrite <- (merge_game_stats_assoc A B C) by assumption.
    rewrite (merge_game_stats_comm A B).
    apply merge_game_stats_assoc; assumption.
Qed.

(** C5: the empty aggregate statistics is an identity of cross-match
    aggregation, on either side, for every aggregate statistics whose
    stored counts are positive (as counting frames and merging make
    them). *)
Theorem merge_game_stats_identity X :
  positive_counts X →
  merge_game_stats ∅ X = X ∧ merge_game_stats X ∅ = X.
Proof.
  intros HX. split.
  - apply merge_game_stats_empty_l, HX.
  - rewrite merge_game_stats_comm. apply merge_game_stats_empty_l, HX.
Qed.

(** The invariants are decidable; on concrete statistics they are
    settled by evaluation. *)
Ltac evaluate_counts :=
  unfold positive_counts, nonneg_counts, all_counts;
  refine (bool_decide_unpack _ _); exact I.

(** The spec's merge scenario. *)
Example merge_scenario :
  merge_game_stats Scenario.first Scenario.second = Scenario.merged.
Proof. reflexivity. Qed.

Lemma scenario_counts :
  positive_counts Scenario.first ∧ positive_counts Scenario.second
  ∧ positive_counts Scenario.third.
Proof.
  repeat split; evaluate_counts.
Defined.

Lemma merge_game_stats_commutative_associative_witness :
  (nonneg_counts Scenario.first ∧ nonneg_counts Scenario.second
   ∧ nonneg_counts Scenario.third)
  ∧ merge_game_stats Scenario.first Scenario.second
    = merge_game_stats Scenario.second Scenario.first
  ∧ merge_game_stats (merge_game_stats Scenario.first Scenario.second) Scenario.third
    = merge_game_stats Scenario.first (merge_game_stats Scenario.second Scenario.third)
  ∧ merge_game_stats Scenario.first (merge_game_stats Scenario.second Scenario.third)
    = merge_game_stats Scenario.second (merge_game_stats Scenario.first Scenario.third).
Proof.
  assert (nonneg_counts Scenario.first ∧ nonneg_counts Scenario.second
          ∧ nonneg_counts Scenario.third) as Hnn.
  { repeat split; evaluate_counts. }
  split; [exact Hnn|].
  destruct Hnn as (H1 & H2 & H3).
  exact (merge_game_stats_commutative_associative _ _ _ H1 H2 H3).
Defined.

Lemma merge_game_stats_identity_witness :
  positive_counts Scenario.second
  ∧ merge_game_stats ∅ Scenario.second = Scenario.second
  ∧ merge_game_stats Scenario.second ∅ = Scenario.second.
Proof.
  assert (positive_counts Scenario.second) as Hpos.
  { evaluate_counts. }
  split; [exact Hpos|].
  exact (merge_game_stats_identity _ Hpos).
Defined.

(** Why the counts must not be negative: a negative count is dropped by
    the inner sum before the outer one can cancel it. *)
Example merge_negative_counts :
  merge_game_stats (merge_game_stats Scenario.minus_one Scenario.zero_count) Scenario.plus_one
  ≠ merge_game_stats Scenario.minus_one (merge_game_stats Scenario.zero_count Scenario.plus_one).
Proof.
  intros Heq.
  apply (f_equal (λ s, count_at s "P1" "full_state" "WAIT")) in Heq.
  vm_compute in Heq. discriminate Heq.
Qed.

(** A stored count of zero does not survive a merge. *)
Example merge_zero_count :
  merge_game_stats ∅ Scenario.zero_count
  = {[ "P1" := {[ "full_state" := ∅ ]} ]}.
Proof. reflexivity. Qed.

(** ** Feature extractors *)

Section Extractors.
Context `{Slippi}.

#[local] Instance value_le_transitive : Transitive value_le.
Proof. intros b c d. unfold value_le. lia. Qed.

Lemma sorted_insert_Permutation b l : sorted_insert b l ≡ₚ b :: l.
Proof.
  induction l as [|c l IH]; simpl; [reflexivity|].
  case_decide; [|reflexivity].
  rewrite IH. apply Permutation_swap.
Qed.

Lemma sorted_Permutation l : sorted l ≡ₚ l.
Proof.
  unfold sorted.
  assert (∀ acc, foldl (λ acc b, sorted_insert b acc) acc l ≡ₚ l ++ acc) as Hgen.
  { induction l as [|b l IH]; intros acc; simpl; [reflexivity|].
    rewrite IH, sorted_insert_Permutation.
    symmetry. apply Permutation_middle. }
  rewrite Hgen, app_nil_r. reflexivity.
Qed.

Lemma sorted_insert_StronglySorted b l :
  StronglySorted value_le l → StronglySorted value_le (sorted_insert b l).
Proof.
  induction 1 as [|c l Hl IH Hc]; simpl.
  - repeat constructor.
  - case_decide as Hle.
    + constructor; [exact IH|].
      rewrite sorted_insert_Permutation. constructor; assumption.
    + constructor; [constructor; assumption|].
      assert (value_le b c) as Hbc by (unfold value_le; lia).
      constructor; [exact Hbc|].
      eapply Forall_impl; [exact Hc|].
      intros d Hd. etransitivity; eassumption.
Qed.

Lemma sorted_Sorted l : Sorted value_le (sorted l).
Proof.
  apply StronglySorted_Sorted. unfold sorted.
  assert (∀ acc, StronglySorted value_le acc →
    StronglySorted value_le (foldl (λ acc b, sorted_insert b acc) acc l)) as Hgen.
  { induction l as [|b l IH]; intros acc Hacc; simpl; [exact Hacc|].
    apply IH, sorted_insert_StronglySorted, Hacc. }
  apply Hgen. constructor.
Qed.

(** With distinct values for distinct buttons, the order of the held
    buttons does not show in the sorted list. *)
Lemma sorted_canonical l1 l2 :
  (∀ b c, button_value b = button_value c → b = c) →
  l1 ≡ₚ l2 → sorted l1 = sorted l2.
Proof.
  intros Hinj Hperm.
  assert (AntiSymm (=) value_le) as Hanti.
  { intros b c Hbc Hcb. apply Hinj. unfold value_le in *. lia. }
  apply (Sorted_unique value_le); try apply sorted_Sorted.
  rewrite !sorted_Permutation. exact Hperm.
Qed.

Lemma head_char_concat_names l :
  (∀ b, head_char (button_name b) ≠ Some "("%char) →
  head_char (String.concat "," (button_name <$> l)) ≠ Some "("%char.
Proof.
  intros Hnames. destruct l as [|b l]; simpl; [discriminate|].
  destruct l as [|c l]; simpl; [apply Hnames|].
  specialize (Hnames b).
  destruct (button_name b); simpl in *; [discriminate|exact Hnames].
Qed.

Lemma fmt_buttons_list l :
  l ≠ [] → _fmt_buttons (inl l) = String.concat "," (button_name <$> sorted l).
Proof. destruct l; [congruence|reflexivity]. Qed.

Lemma buttons_head_char port_data :
  (∀ b, head_char (button_name b) ≠ Some "("%char) →
  pressed (physical (pre port_data)) ≠ [] →
  head_char (_buttons port_data) ≠ Some "("%char.
Proof.
  intros Hnames Hheld. unfold _buttons.
  rewrite fmt_buttons_list by exact Hheld.
  apply head_char_concat_names, Hnames.
Qed.

Lemma buttons_not_hitstun_sentinel port_data :
  (∀ b, head_char (button_name b) ≠ Some "("%char) →
  _buttons port_data ≠ "(not in hitstun)".
Proof.
  intros Hnames Heq.
  destruct (pressed (physical (pre port_data))) as [|b l] eqn:Hheld.
  - unfold _buttons in Heq. rewrite Hheld in Heq. discriminate.
  - apply (buttons_head_char port_data Hnames); [rewrite Hheld; discriminate|].
    rewrite Heq. reflexivity.
Qed.

(** C8: the buttons extractor returns the held buttons in ascending
    order of their values, as their names joined by commas; the result
    does not depend on the order in which the held buttons are listed;
    an empty held set gives ["(no input)"], which no non-empty held set
    gives. *)
Theorem buttons_canonical (port_data : Data) :
  (∀ b c, button_value b = button_value c → b = c) →
  (∀ b, head_char (button_name b) ≠ Some "("%char) →
  let held := pressed (physical (pre port_data)) in
  (held = [] → _buttons port_data = "(no input)")
  ∧ (held ≠ [] →
     ∃ tuple, tuple ≡ₚ held ∧ Sorted value_le tuple
       ∧ _buttons port_data = String.concat "," (button_name <$> tuple)
       ∧ _buttons port_data ≠ "(no input)")
  ∧ (∀ other, pressed (physical (pre other)) ≡ₚ held →
       _buttons other = _buttons port_data).
Proof.
  intros Hinj Hnames held. repeat split.
  - intros Hheld. unfold _buttons. fold held. rewrite Hheld. reflexivity.
  - intros Hheld. exists (sorted held). repeat split.
    + apply sorted_Permutation.
    + apply sorted_Sorted.
    + unfold _buttons. fold held. apply fmt_buttons_list, Hheld.
    + intros Heq. apply (buttons_head_char port_data Hnames Hheld).
      rewrite Heq. reflexivity.
  - intros other Hperm. unfold _buttons. fold held.
    destruct held as [|b l] eqn:Hheld.
    + apply Permutation_nil_r in Hperm. rewrite Hperm. reflexivity.
    + rewrite !fmt_buttons_list.
      * rewrite (sorted_canonical _ _ Hinj Hperm). reflexivity.
      * discriminate.
      * intros Hnil. rewrite Hnil in Hperm.
        apply Permutation_nil_cons in Hperm. exact Hperm.
Qed.

(** C6: the hitstun_buttons extractor returns the value of the buttons
    extractor when the stun counter is greater than zero and
    ["(not in hitstun)"] otherwise; the buttons extractor never returns
    that string, so the two extractors agree exactly when the counter is
    greater than zero. *)
Theorem hitstun_buttons_spec (port_data : Data) :
  (∀ b, head_char (button_name b) ≠ Some "("%char) →
  (hit_stun (post port_data) > 0 →
     _hitstun_buttons port_data = _buttons port_data)
  ∧ (¬ hit_stun (post port_data) > 0 →
     _hitstun_buttons port_data = "(not in hitstun)")
  ∧ (∀ other, _buttons other ≠ "(not in hitstun)")
  ∧ (_hitstun_buttons port_data = _buttons port_data
     ↔ hit_stun (post port_data) > 0).
Proof.
  intros Hnames. unfold _hitstun_buttons. repeat split.
  - intros Hstun. rewrite decide_True by exact Hstun. reflexivity.
  - intros Hstun. rewrite decide_False by exact Hstun. reflexivity.
  - intros other. apply buttons_not_hitstun_sentinel, Hnames.
  - case_decide as Hstun; [intros _; exact Hstun|].
    intros Heq. symmetry in Heq.
    destruct (buttons_not_hitstun_sentinel port_data Hnames Heq).
  - intros Hstun. rewrite decide_True by exact Hstun. reflexivity.
Qed.

(** With six distinct members the three groups are pairwise disjoint. *)
Lemma groups_disjoint (s : ActionState) :
  NoDup [WAIT; SQUAT_WAIT; WALK_FAST; WALK_MIDDLE; WALK_SLOW; DASH] →
  ¬ (s ∈ ({[ WAIT; SQUAT_WAIT ]} : gset ActionState)
     ∧ s ∈ ({[ WALK_FAST; WALK_MIDDLE; WALK_SLOW ]} : gset ActionState))
  ∧ ¬ (s ∈ ({[ WAIT; SQUAT_WAIT ]} : gset ActionState)
       ∧ s ∈ ({[ DASH ]} : gset ActionState))
  ∧ ¬ (s ∈ ({[ WALK_FAST; WALK_MIDDLE; WALK_SLOW ]} : gset ActionState)
       ∧ s ∈ ({[ DASH ]} : gset ActionState)).
Proof.
  intros Hdistinct.
  repeat (apply NoDup_cons in Hdistinct as [? Hdistinct]).
  repeat match goal with
         | Hn : _ ∉ _ :: _ |- _ => apply not_elem_of_cons in Hn as [? Hn]
         end.
  rewrite !elem_of_union, !elem_of_singleton.
  repeat split; intros [Ha Hb];
    repeat match goal with
           | Hor : _ ∨ _ |- _ => destruct Hor
           end; congruence.
Qed.

(** With six distinct members the display stores three items. *)
Lemma STATE_GROUPS_items :
  NoDup [WAIT; SQUAT_WAIT; WALK_FAST; WALK_MIDDLE; WALK_SLOW; DASH] →
  STATE_GROUPS =
    [ ({[ WAIT; SQUAT_WAIT ]}, "WAIT");
      ({[ WALK_FAST; WALK_MIDDLE; WALK_SLOW ]}, "WALK");
      ({[ DASH ]}, "DASH") ].
Proof.
  intros Hdistinct.
  destruct (groups_disjoint WALK_FAST Hdistinct) as (Hwalk & _ & _).
  destruct (groups_disjoint DASH Hdistinct) as (_ & Hdash1 & Hdash2).
  clear Hdistinct.
  unfold STATE_GROUPS, dict_display. simpl.
  rewrite (decide_False (P := _ = _)).
  2:{ intros Heq. apply Hwalk. rewrite <- Heq.
      rewrite !elem_of_union, !elem_of_singleton. tauto. }
  simpl.
  rewrite (decide_False (P := _ = _)).
  2:{ intros Heq. apply Hdash1. rewrite <- Heq.
      rewrite !elem_of_singleton. tauto. }
  rewrite (decide_False (P := _ = _)).
  2:{ intros Heq. apply Hdash2. rewrite <- Heq.
      rewrite !elem_of_singleton. tauto. }
  reflexivity.
Qed.

Lemma state_group_loop_other items s :
  (∀ groupset name, (groupset, name) ∈ items → s ∉ groupset) →
  state_group_loop items s = "OTHER".
Proof.
  induction items as [|[groupset name] items IH]; intros Hnone; simpl.
  - reflexivity.
  - rewrite decide_False.
    + apply IH. intros g n Hin. apply (Hnone g n). right. exact Hin.
    + apply (Hnone groupset name). left.
Qed.

Lemma state_group_loop_label items s :
  (∃ groupset, (groupset, state_group_loop items s) ∈ items ∧ s ∈ groupset)
  ∨ (state_group_loop items s = "OTHER"
     ∧ ∀ groupset name, (groupset, name) ∈ items → s ∉ groupset).
Proof.
  induction items as [|[groupset name] items IH]; simpl.
  - right. split; [reflexivity|]. intros g n Hin. apply elem_of_nil in Hin.
    destruct Hin.
  - case_decide as Hin.
    + left. exists groupset. split; [left|exact Hin].
    + destruct IH as [(g & Hg & Hs)|[Hother Hnone]].
      * left. exists g. split; [right; exact Hg|exact Hs].
      * right. split; [exact Hother|].
        intros g n Hgn. apply elem_of_cons in Hgn as [[= -> ->]|Hgn];
          [exact Hin|apply (Hnone g n Hgn)].
Qed.

(** C7: the state_group extractor returns one label for every record.
    With the six named states distinct, a state lies in at most one
    group of the table and the label is that group's; a label other than
    OTHER is the label of a group holding the state; a state in no group
    gives OTHER. *)
Theorem state_group_partition (port_data : Data) :
  NoDup [WAIT; SQUAT_WAIT; WALK_FAST; WALK_MIDDLE; WALK_SLOW; DASH] →
  let s := state (post port_data) in
  (∀ groupset name,
     (groupset, name) ∈ STATE_GROUPS → s ∈ groupset →
     _state_group port_data = name
     ∧ ∀ groupset' name',
         (groupset', name') ∈ STATE_GROUPS → s ∈ groupset' →
         groupset' = groupset ∧ name' = name)
  ∧ (_state_group port_data ≠ "OTHER" →
     ∃ groupset,
       (groupset, _state_group port_data) ∈ STATE_GROUPS ∧ s ∈ groupset)
  ∧ ((∀ groupset name, (groupset, name) ∈ STATE_GROUPS → s ∉ groupset) →
     _state_group port_data = "OTHER").
Proof.
  intros Hdistinct s. split; [|split].
  - intros groupset name Hin Hs. unfold _state_group. fold s.
    rewrite (STATE_GROUPS_items Hdistinct) in *.
    destruct (groups_disjoint s Hdistinct) as (D12 & D13 & D23).
    clear Hdistinct.
    assert (∀ g n, (g, n) ∈ [ (({[ WAIT; SQUAT_WAIT ]} : gset ActionState), "WAIT");
                              ({[ WALK_FAST; WALK_MIDDLE; WALK_SLOW ]}, "WALK");
                              ({[ DASH ]}, "DASH") ] →
              (g = {[ WAIT; SQUAT_WAIT ]} ∧ n = "WAIT")
              ∨ (g = {[ WALK_FAST; WALK_MIDDLE; WALK_SLOW ]} ∧ n = "WALK")
              ∨ (g = {[ DASH ]} ∧ n = "DASH")) as Hcases.
    { intros g n Hgn. repeat (apply elem_of_cons in Hgn as [[= -> ->]|Hgn]);
        [tauto..|]. apply elem_of_nil in Hgn. destruct Hgn. }
    split.
    + simpl. apply Hcases in Hin as [[-> ->]|[[-> ->]|[-> ->]]];
        repeat case_decide; first [reflexivity | exfalso; tauto].
    + intros g' n' Hin' Hs'.
      apply Hcases in Hin as [[-> ->]|[[-> ->]|[-> ->]]];
        apply Hcases in Hin' as [[-> ->]|[[-> ->]|[-> ->]]];
        first [split; reflexivity | exfalso; tauto].
  - intros Hlabel. unfold _state_group in *. fold s in Hlabel |- *.
    destruct (state_group_loop_label STATE_GROUPS s) as [Hsome|[Hother _]].
    + exact Hsome.
    + contradiction.
  - intros Hnone. apply state_group_loop_other, Hnone.
Qed.

End Extractors.

(** ** Counting *)

Lemma counter_total_insert (counter : gmap string Z) k v :
  counter !! k = None →
  counter_total (<[k := v]> counter) = counter_total counter + v.
Proof.
  intros Hk. unfold counter_total.
  rewrite map_fold_insert_L; [reflexivity| |exact Hk].
  intros. lia.
Qed.

Lemma counter_total_delete (counter : gmap string Z) k v :
  counter !! k = Some v →
  counter_total counter = counter_total (delete k counter) + v.
Proof.
  intros Hk. unfold counter_total.
  rewrite (map_fold_delete_L _ _ k v counter); [reflexivity| |exact Hk].
  intros. lia.
Qed.

Lemma counter_total_count (counter : gmap string Z) elem :
  counter_total (<[elem := default 0 (counter !! elem) + 1]> counter)
  = counter_total counter + 1.
Proof.
  destruct (counter !! elem) as [v|] eqn:Hk; simpl.
  - rewrite <- insert_delete_eq.
    rewrite counter_total_insert by apply lookup_delete_eq.
    rewrite (counter_total_delete counter elem v Hk). lia.
  - rewrite counter_total_insert by exact Hk. lia.
Qed.

Lemma counter_total_Counter iterable :
  counter_total (Counter iterable) = Z.of_nat (length iterable).
Proof.
  unfold Counter.
  assert (∀ c : gmap string Z,
    counter_total (foldl (λ c elem, <[elem := default 0 (c !! elem) + 1]> c) c iterable)
    = counter_total c + Z.of_nat (length iterable)) as Hgen.
  { induction iterable as [|elem l IH]; intros c; simpl length.
    - simpl. lia.
    - cbn [foldl]. rewrite IH, counter_total_count. lia. }
  rewrite Hgen. unfold counter_total. rewrite map_fold_empty. lia.
Qed.

Lemma Counter_positive iterable :
  map_Forall (λ _ count, 0 < count) (Counter iterable).
Proof.
  unfold Counter.
  assert (∀ c : gmap string Z,
    map_Forall (λ _ count, 0 < count) c →
    map_Forall (λ _ count, 0 < count)
      (foldl (λ c elem, <[elem := default 0 (c !! elem) + 1]> c) c iterable)) as Hgen.
  { induction iterable as [|elem l IH]; intros c Hc; [exact Hc|].
    cbn [foldl]. apply IH. apply map_Forall_insert_2; [|exact Hc].
    destruct (c !! elem) as [v|] eqn:Hk; simpl; [|lia].
    apply Hc in Hk. lia. }
  apply Hgen, map_Forall_empty.
Qed.

(** A counter of positive counts with total zero is empty. *)
Lemma counter_total_positive (counter : gmap string Z) :
  map_Forall (λ _ count, 0 < count) counter →
  0 ≤ counter_total counter ∧ (counter ≠ ∅ → 0 < counter_total counter).
Proof.
  induction counter as [|k v c Hk IH] using map_ind; intros Hpos.
  - unfold counter_total. rewrite map_fold_empty. split; [lia|congruence].
  - rewrite counter_total_insert by exact Hk.
    apply map_Forall_insert in Hpos as [Hv Hc]; [|exact Hk].
    destruct (IH Hc) as [Hge _]. split; [lia|intros _; lia].
Qed.

(** ** Frame classifier *)

Section Summarizer.
Context `{Slippi}.

Lemma handle_frame_port_items (port : Port) :
  _handle_frame_port port
  = <["full_state" := _state (leader port)]>
      (<["state_group" := _state_group (leader port)]>
         (<["hitstun_buttons" := _hitstun_buttons (leader port)]>
            (<["buttons" := _buttons (leader port)]> ∅))).
Proof. reflexivity. Qed.

(** Every classified slot has the four axes and no other. *)
Lemma handle_frame_port_axes (port : Port) axis :
  is_Some (_handle_frame_port port !! axis) ↔ axis ∈ FRAME_DATA_HANDLERS.*1.
Proof.
  rewrite handle_frame_port_items. simpl.
  rewrite !lookup_insert_is_Some, lookup_empty, !elem_of_cons, elem_of_nil.
  split.
  - intros [<-|[_ [<-|[_ [<-|[_ [<-|[_ [? [=]]]]]]]]]]; tauto.
  - intros [->|[->|[->|[->|[]]]]];
      repeat (first [left; reflexivity | right; split; [discriminate|]]).
Qed.

(** The dictionary comprehension over [enumerate(ports)]: a slot that is
    not empty is stored under its own index. *)
Lemma handle_ports_skip (g : nat → nat) ps (d : gmap nat (gmap string string)) i :
  (∀ j, j < length ps → g j ≠ i)%nat →
  foldl (λ d (ip : nat * option Port),
           match ip.2 with
           | Some frame_port => <[ip.1 := _handle_frame_port frame_port]> d
           | None => d
           end) d (imap (λ j x, (g j, x)) ps) !! i = d !! i.
Proof.
  revert g d. induction ps as [|x ps IH]; intros g d Hne; [reflexivity|].
  cbn [imap foldl]. rewrite (IH (g ∘ S)).
  - destruct x as [p|]; simpl; [|reflexivity].
    apply lookup_insert_ne. apply (Hne 0%nat). simpl. lia.
  - intros j Hj. apply (Hne (S j)). simpl. lia.
Qed.

Lemma handle_ports_lookup (g : nat → nat) ps (d : gmap nat (gmap string string)) j :
  Inj (=) (=) g → (j < length ps)%nat →
  foldl (λ d (ip : nat * option Port),
           match ip.2 with
           | Some frame_port => <[ip.1 := _handle_frame_port frame_port]> d
           | None => d
           end) d (imap (λ j x, (g j, x)) ps) !! g j
  = match ps !! j with
    | Some (Some frame_port) => Some (_handle_frame_port frame_port)
    | _ => d !! g j
    end.
Proof.
  intros Hinj. revert g d j Hinj.
  induction ps as [|x ps IH]; intros g d j Hinj Hj; [simpl in Hj; lia|].
  cbn [imap foldl]. destruct j as [|j].
  - rewrite (handle_ports_skip (g ∘ S)).
    + destruct x as [p|]; simpl; [apply lookup_insert_eq|reflexivity].
    + intros k _ Heq. apply Hinj in Heq. discriminate.
  - change (g (S j)) with ((g ∘ S) j). rewrite (IH (g ∘ S)).
    + simpl. destruct (ps !! j) as [[p|]|]; try reflexivity;
        (destruct x as [q|]; simpl; [|reflexivity];
         apply lookup_insert_ne; intros Heq; apply Hinj in Heq; discriminate).
    + intros a b Hab. apply Hinj in Hab. congruence.
    + simpl in Hj. lia.
Qed.

Lemma handle_frame_lookup (frame : Frame) i :
  _handle_frame frame !! i
  = match ports frame !! i with
    | Some (Some frame_port) => Some (_handle_frame_port frame_port)
    | _ => None
    end.
Proof.
  unfold _handle_frame, enumerate.
  destruct (decide (i < length (ports frame))%nat) as [Hlt|Hge].
  - rewrite (handle_ports_lookup id (ports frame) ∅ i); [|apply _|exact Hlt].
    rewrite lookup_empty. destruct (ports frame !! i) as [[p|]|]; reflexivity.
  - rewrite (handle_ports_skip id (ports frame) ∅ i).
    + rewrite lookup_empty, lookup_ge_None_2 by lia. reflexivity.
    + intros j Hj. unfold id. lia.
Qed.

(** ** Match summarizer *)

Lemma summarize_player_frames_inv player_name frame_stats tables :
  _summarize_player_frames player_name frame_stats false = inr tables →
  ∃ first rest, frame_stats = first :: rest
    ∧ (∀ axis, is_Some (tables !! axis) ↔ is_Some (first !! axis))
    ∧ (∀ axis counter, tables !! axis = Some counter →
         ∃ values,
           for_each (λ fs, getitem fs axis) frame_stats = inr values
           ∧ counter = Counter values).
Proof.
  unfold _summarize_player_frames.
  destruct frame_stats as [|first rest]; [discriminate|].
  cbn [first_item bind ret].
  set (count_axis := λ stats_key : string,
         do values <- for_each (λ fs, getitem fs stats_key) (first :: rest);
         ret (stats_key, Counter values)).
  destruct (for_each count_axis (map_to_list first).*1) as [e|kvs] eqn:Hkvs;
    cbn [bind ret]; [discriminate|].
  intros [= <-]. exists first, rest. split; [reflexivity|].
  assert (∀ k kv, count_axis k = inr kv →
            ∃ values, for_each (λ fs, getitem fs k) (first :: rest) = inr values
                      ∧ kv = (k, Counter values)) as Hshape.
  { intros k kv. unfold count_axis.
    destruct (for_each (λ fs, getitem fs k) (first :: rest)) as [e|values];
      cbn [bind ret]; [discriminate|].
    intros [= <-]. eauto. }
  assert (∀ axis counter, (axis, counter) ∈ kvs →
            axis ∈ (map_to_list first).*1
            ∧ ∃ values, for_each (λ fs, getitem fs axis) (first :: rest) = inr values
                        ∧ counter = Counter values) as Hin.
  { intros axis counter Hkv.
    destruct (for_each_inr_elem_r _ _ _ _ Hkvs Hkv) as (k & Hk & Hck).
    apply Hshape in Hck as (values & Hvalues & [= -> ->]).
    split; [exact Hk|]. eauto. }
  split.
  - intros axis. split.
    + intros [counter Hlook]. apply elem_of_list_to_map_2 in Hlook.
      apply Hin in Hlook as [Hkey _].
      apply list_elem_of_fmap in Hkey as ([k v] & -> & Hkv).
      apply elem_of_map_to_list in Hkv. simpl. eauto.
    + intros [v Hv].
      assert (axis ∈ (map_to_list first).*1) as Hkey.
      { apply list_elem_of_fmap. exists (axis, v). split; [reflexivity|].
        apply elem_of_map_to_list, Hv. }
      destruct (for_each_inr_elem_l _ _ _ _ Hkvs Hkey) as (kv & Hkv & Hck).
      apply Hshape in Hck as (values & _ & ->).
      destruct (list_to_map kvs !! axis) as [c|] eqn:Hlook; [eauto|].
      apply not_elem_of_list_to_map in Hlook. exfalso. apply Hlook.
      apply list_elem_of_fmap. exists (axis, Counter values). split; [reflexivity|exact Hkv].
  - intros axis counter Hlook. apply elem_of_list_to_map_2 in Hlook.
    apply Hin in Hlook as [_ Hvalues]. exact Hvalues.
Qed.

(** What one round of the loop over the present players stores. *)
Lemma game_summary_invariant (g : Game) summary :
  game_summary g = inr summary →
  ∀ player tables, summary !! player = Some tables →
    (∀ axis, is_Some (tables !! axis) ↔ axis ∈ FRAME_DATA_HANDLERS.*1)
    ∧ (∀ axis counter, tables !! axis = Some counter →
         counter_total counter = Z.of_nat (length (frames g))
         ∧ map_Forall (λ _ count, 0 < count) counter).
Proof.
  unfold game_summary.
  apply (for_fold_invariant
    (λ s : gmap string (gmap string (gmap string Z)),
       ∀ player tables, s !! player = Some tables →
         (∀ axis, is_Some (tables !! axis) ↔ axis ∈ FRAME_DATA_HANDLERS.*1)
         ∧ (∀ axis counter, tables !! axis = Some counter →
              counter_total counter = Z.of_nat (length (frames g))
              ∧ map_Forall (λ _ count, 0 < count) counter))).
  - intros player tables Hlook. rewrite lookup_empty in Hlook. discriminate.
  - intros s1 [i pl] s2 Hs1 _. cbn [fst snd].
    destruct (player_key_of pl) as [e|player_key]; cbn [bind ret]; [discriminate|].
    destruct (for_each (λ f, getitem f i) (_handle_frame <$> frames g))
      as [e|frame_stats] eqn:Hfs; cbn [bind ret]; [discriminate|].
    destruct (_summarize_player_frames player_key frame_stats false)
      as [e|counters] eqn:Hsum; cbn [bind ret]; [discriminate|].
    intros [= <-] player tables Hlook.
    destruct (decide (player_key = player)) as [->|Hne].
    2:{ rewrite lookup_insert_ne in Hlook by exact Hne. apply (Hs1 _ _ Hlook). }
    rewrite lookup_insert_eq in Hlook. injection Hlook as ->.
    apply summarize_player_frames_inv in Hsum
      as (first & rest & Hcons & Haxes & Hcount).
    split.
    + intros axis. rewrite Haxes.
      assert (first ∈ frame_stats) as Hfirst by (rewrite Hcons; left).
      destruct (for_each_inr_elem_r _ _ _ _ Hfs Hfirst) as (f & Hf & Hget).
      apply list_elem_of_fmap in Hf as (frame & -> & _).
      unfold getitem in Hget. rewrite handle_frame_lookup in Hget.
      destruct (ports frame !! i) as [[p|]|]; try discriminate.
      injection Hget as <-. apply handle_frame_port_axes.
    + intros axis counter Hlook.
      destruct (Hcount axis counter Hlook) as (values & Hvalues & ->).
      split; [|apply Counter_positive].
      rewrite counter_total_Counter. f_equal.
      rewrite (for_each_length _ _ _ Hvalues), (for_each_length _ _ _ Hfs).
      apply length_fmap.
Qed.

(** C4: in the summary of a match, every table of every player sums to
    the number of frames of the match, and every player has a table for
    each of the four axes. *)
Theorem frame_count_conservation (g : Game) summary :
  game_summary g = inr summary →
  ∀ player tables, summary !! player = Some tables →
    (∀ axis counter, tables !! axis = Some counter →
       counter_total counter = Z.of_nat (length (frames g)))
    ∧ (∀ axis, axis ∈ ["buttons"; "hitstun_buttons"; "state_group"; "full_state"] →
       ∃ counter, tables !! axis = Some counter
                  ∧ counter_total counter = Z.of_nat (length (frames g))).
Proof.
  intros Hsum player tables Hlook.
  destruct (game_summary_invariant g summary Hsum player tables Hlook)
    as [Haxes Hcount].
  split.
  - intros axis counter Hc. apply (Hcount axis counter Hc).
  - intros axis Haxis. destruct (proj2 (Haxes axis) Haxis) as [counter Hc].
    exists counter. split; [exact Hc|]. apply (Hcount axis counter Hc).
Qed.

(** Every count of a summary is positive. *)
Lemma game_summary_positive (g : Game) summary :
  game_summary g = inr summary → positive_counts summary.
Proof.
  intros Hsum player tables Hp axis counter Ha.
  destruct (game_summary_invariant g summary Hsum player tables Hp)
    as [_ Hcount].
  apply (Hcount axis counter Ha).
Qed.

(** C1: a match with no frame and at least one present player makes the
    summarizer raise [IndexError]; it returns no table. *)
Theorem game_summary_no_frames (g : Game) :
  frames g = [] → omap id (players g) ≠ [] →
  game_summary g = inl IndexError.
Proof.
  intros Hframes Hpresent. unfold game_summary. rewrite Hframes.
  destruct (omap id (players g)) as [|pl present]; [congruence|].
  unfold enumerate. cbn [imap for_fold fst snd fmap list_fmap].
  unfold player_key_of.
  destruct (characters pl) as [|c cs]; reflexivity.
Qed.

(** Without a present player the zero-frame match is summarised. *)
Lemma game_summary_no_players (g : Game) :
  omap id (players g) = [] → game_summary g = inr ∅.
Proof. intros Hpresent. unfold game_summary. rewrite Hpresent. reflexivity. Qed.

End Summarizer.

(** C2: with slots 0 and 2 occupied and slot 1 empty, the second present
    player is looked up under index 1 of the classified frame, where
    nothing is stored: the summarizer raises [KeyError]. *)
Theorem game_summary_slots_0_and_2 :
  game_summary Melee.slots_0_and_2 = inl KeyError.
Proof. reflexivity. Qed.

(** ** Reporter *)

Section Reporter.
Context `{Slippi}.

Lemma most_common_empty : most_common ∅ = [].
Proof. unfold most_common. rewrite map_to_list_empty. reflexivity. Qed.

Lemma percent_row_total (total : Z) sc :
  total ≠ 0 → ∃ row, percent_row total sc = inr row.
Proof.
  intros Hne. unfold percent_row. rewrite decide_False by exact Hne.
  eexists. reflexivity.
Qed.

(** The rows of one axis: no quotient is formed for an empty table, and
    the total of a non-empty table of positive counts is not zero. *)
Lemma axis_rows_total (counter : gmap string Z) :
  map_Forall (λ _ count, 0 < count) counter →
  ∃ rows, for_each (percent_row (counter_total counter))
                   (take 10 (most_common counter)) = inr rows.
Proof.
  intros Hpos. destruct (decide (counter = ∅)) as [->|Hne].
  - rewrite most_common_empty. eexists. reflexivity.
  - apply for_each_total. intros sc _. apply percent_row_total.
    destruct (counter_total_positive counter Hpos) as [_ Hlt].
    specialize (Hlt Hne). lia.
Qed.

Lemma print_player_stats_total player_name
    (counters : gmap string (gmap string Z)) :
  map_Forall (λ (_ : string) (counter : gmap string Z),
                map_Forall (λ _ count, 0 < count) counter) counters →
  ∃ lines, _print_player_stats player_name counters = inr lines.
Proof.
  intros Hpos. unfold _print_player_stats.
  destruct (for_each_total
    (λ kc : string * gmap string Z,
       do rows <- for_each (percent_row (counter_total kc.2))
                           (take 10 (most_common kc.2));
       ret [AxisLine kc.1; RowsBlock rows])
    (map_to_list counters)) as [blocks Hblocks].
  - intros [axis counter] Hin. apply elem_of_map_to_list in Hin.
    destruct (axis_rows_total counter (Hpos axis counter Hin)) as [rows Hrows].
    cbn [fst snd]. rewrite Hrows. eexists. reflexivity.
  - rewrite Hblocks. eexists. reflexivity.
Qed.

(** C9: for tables of positive counts, empty tables included, the
    Reporter forms no quotient with a zero total: it returns its lines,
    and an axis whose total is zero has an empty table, for which it
    prints no row. *)
Theorem print_player_stats_no_zero_division player_name
    (counters : gmap string (gmap string Z)) :
  map_Forall (λ (_ : string) (counter : gmap string Z),
                map_Forall (λ _ count, 0 < count) counter) counters →
  (∃ lines, _print_player_stats player_name counters = inr lines)
  ∧ (∀ axis counter, counters !! axis = Some counter →
       counter_total counter = 0 →
       counter = ∅
       ∧ for_each (percent_row (counter_total counter))
                  (take 10 (most_common counter)) = inr []).
Proof.
  intros Hpos. split.
  - apply print_player_stats_total, Hpos.
  - intros axis counter Hlook Hzero.
    assert (counter = ∅) as ->.
    { destruct (decide (counter = ∅)) as [Hm|Hne]; [exact Hm|].
      destruct (counter_total_positive counter (Hpos axis counter Hlook)) as [_ Hlt].
      specialize (Hlt Hne). lia. }
    split; [reflexivity|]. rewrite most_common_empty. reflexivity.
Qed.

(** A stored count of zero is what makes the quotient fail. *)
Example print_zero_count :
  _print_player_stats "P1" {[ "full_state" := {[ "WAIT" := 0 ]} ]}
  = inl ZeroDivisionError.
Proof. reflexivity. Qed.

Example print_empty_table :
  _print_player_stats "P1" {[ "full_state" := ∅ ]}
  = inr [PlayerLine "P1"; AxisLine "full_state"; RowsBlock []].
Proof. reflexivity. Qed.

Lemma report_total (combined : gmap string (gmap string (gmap string Z))) :
  positive_counts combined → ∃ lines, report combined = inr lines.
Proof.
  intros Hpos. unfold report.
  destruct (for_each_total
    (λ ps : string * gmap string (gmap string Z), _print_player_stats ps.1 ps.2)
    (map_to_list combined)) as [blocks Hblocks].
  - intros [player tables] Hin. apply elem_of_map_to_list in Hin.
    apply print_player_stats_total. exact (Hpos player tables Hin).
  - rewrite Hblocks. eexists. reflexivity.
Qed.

(** The running total of the batch loop stores positive counts only, so
    the final report raises nothing. *)
Lemma combined_stats_positive (games : list Game) combined :
  combined_stats games = inr combined → positive_counts combined.
Proof.
  unfold combined_stats.
  apply (for_fold_invariant positive_counts).
  - intros player tables Hlook. rewrite lookup_empty in Hlook. discriminate.
  - intros s1 game s2 _ _.
    destruct (game_summary game) as [e|this_game_stats]; cbn [bind ret];
      [discriminate|].
    intros [= <-]. apply merge_game_stats_positive.
Qed.

Lemma batch_report (games : list Game) combined :
  combined_stats games = inr combined → ∃ lines, report combined = inr lines.
Proof. intros Hc. eapply report_total, combined_stats_positive, Hc. Qed.

End Reporter.

(** ** Batch driver *)

Section Driver.
Context `{Slippi}.

Lemma yielded_length (events : list LoadEvent) :
  (length (yielded events) ≤ length events)%nat.
Proof.
  unfold yielded. induction events as [|[game|message] events IH]; csimpl; lia.
Qed.

(** C10: [load_all] looks at the first five matched paths only: its
    events are those of the first five paths, at most five games are
    yielded, each of them loaded from one of the first five paths, and
    neither the loader's behaviour on other paths nor any path after the
    fifth changes the events. *)
Theorem load_all_first_five (load : string → string + Game) (matched : list string) :
  load_all load matched = load_all load (take 5 matched)
  ∧ (length (yielded (load_all load matched)) ≤ 5)%nat
  ∧ (∀ game, game ∈ yielded (load_all load matched) →
       ∃ gamefile, gamefile ∈ take 5 matched ∧ load gamefile = inr game)
  ∧ (∀ load' : string → string + Game,
       (∀ gamefile, gamefile ∈ take 5 matched → load' gamefile = load gamefile) →
       load_all load' matched = load_all load matched)
  ∧ (∀ more, (5 ≤ length matched)%nat →
       load_all load (matched ++ more) = load_all load matched).
Proof.
  repeat split.
  - unfold load_all. rewrite take_take. reflexivity.
  - etransitivity; [apply yielded_length|].
    unfold load_all. rewrite length_fmap, length_take. lia.
  - intros game Hgame. unfold yielded, load_all in Hgame.
    apply list_elem_of_omap in Hgame as (ev & Hev & Hyield).
    apply list_elem_of_fmap in Hev as (gamefile & -> & Hfile).
    exists gamefile. split; [exact Hfile|].
    destruct (load gamefile) as [e|game']; [discriminate|].
    injection Hyield as ->. reflexivity.
  - intros load' Hagree. unfold load_all.
    apply Forall_fmap_ext, Forall_forall. intros gamefile Hfile.
    rewrite (Hagree gamefile Hfile). reflexivity.
  - intros more Hlen. unfold load_all. rewrite take_app_le by exact Hlen.
    reflexivity.
Qed.

End Driver.

(** ** The properties on the sample parser *)

Lemma sample_values_distinct (b c : Melee.button) :
  Melee.value b = Melee.value c → b = c.
Proof. destruct b, c; simpl; intros Heq; first [reflexivity | discriminate]. Defined.

Lemma sample_names_plain (b : Melee.button) :
  head_char (Melee.name b) ≠ Some "("%char.
Proof. destruct b; discriminate. Defined.

Lemma sample_states_distinct :
  NoDup [@WAIT Melee.parser; @SQUAT_WAIT Melee.parser; @WALK_FAST Melee.parser;
         @WALK_MIDDLE Melee.parser; @WALK_SLOW Melee.parser; @DASH Melee.parser].
Proof. refine (bool_decide_unpack _ _). exact I. Defined.

Lemma game_summary_no_frames_witness :
  frames Melee.no_frames = []
  ∧ omap id (players Melee.no_frames) ≠ []
  ∧ game_summary Melee.no_frames = inl IndexError.
Proof.
  assert (frames Melee.no_frames = []) as Hframes by reflexivity.
  assert (omap id (players Melee.no_frames) ≠ []) as Hpresent
    by (cbn; discriminate).
  split; [exact Hframes|]. split; [exact Hpresent|].
  exact (game_summary_no_frames Melee.no_frames Hframes Hpresent).
Defined.

Lemma frame_count_conservation_witness :
  game_summary Melee.three_frames = inr Melee.three_frames_summary
  ∧ ∀ player tables, Melee.three_frames_summary !! player = Some tables →
      (∀ axis counter, tables !! axis = Some counter →
         counter_total counter = Z.of_nat (length (frames Melee.three_frames)))
      ∧ (∀ axis, axis ∈ ["buttons"; "hitstun_buttons"; "state_group"; "full_state"] →
         ∃ counter, tables !! axis = Some counter
                    ∧ counter_total counter
                      = Z.of_nat (length (frames Melee.three_frames))).
Proof.
  assert (game_summary Melee.three_frames = inr Melee.three_frames_summary)
    as Hsum by reflexivity.
  split; [exact Hsum|].
  exact (frame_count_conservation Melee.three_frames Melee.three_frames_summary Hsum).
Defined.

Lemma hitstun_buttons_spec_witness :
  (∀ b : Melee.button, head_char (Melee.name b) ≠ Some "("%char)
  ∧ (hit_stun (post (Melee.data 320 20 4)) > 0 →
       _hitstun_buttons (Melee.data 320 20 4) = _buttons (Melee.data 320 20 4))
  ∧ (¬ hit_stun (post (Melee.data 320 20 4)) > 0 →
       _hitstun_buttons (Melee.data 320 20 4) = "(not in hitstun)")
  ∧ (∀ other, _buttons other ≠ "(not in hitstun)")
  ∧ (_hitstun_buttons (Melee.data 320 20 4) = _buttons (Melee.data 320 20 4)
     ↔ hit_stun (post (Melee.data 320 20 4)) > 0).
Proof.
  split; [exact sample_names_plain|].
  exact (hitstun_buttons_spec (Melee.data 320 20 4) sample_names_plain).
Defined.

Lemma buttons_canonical_witness :
  (∀ b c : Melee.button, Melee.value b = Melee.value c → b = c)
  ∧ (∀ b : Melee.button, head_char (Melee.name b) ≠ Some "("%char)
  ∧ (Melee.held 320 = [] → _buttons (Melee.data 320 20 4) = "(no input)")
  ∧ (Melee.held 320 ≠ [] →
     ∃ tuple, tuple ≡ₚ Melee.held 320 ∧ Sorted value_le tuple
       ∧ _buttons (Melee.data 320 20 4)
         = String.concat "," (Melee.name <$> tuple)
       ∧ _buttons (Melee.data 320 20 4) ≠ "(no input)")
  ∧ (∀ other, pressed (physical (pre other)) ≡ₚ Melee.held 320 →
       _buttons other = _buttons (Melee.data 320 20 4)).
Proof.
  split; [exact sample_values_distinct|]. split; [exact sample_names_plain|].
  exact (buttons_canonical (Melee.data 320 20 4)
           sample_values_distinct sample_names_plain).
Defined.

Lemma state_group_partition_witness :
  NoDup [@WAIT Melee.parser; @SQUAT_WAIT Melee.parser; @WALK_FAST Melee.parser;
         @WALK_MIDDLE Melee.parser; @WALK_SLOW Melee.parser; @DASH Melee.parser]
  ∧ (∀ groupset name,
       (groupset, name) ∈ STATE_GROUPS → (16 : Z) ∈ groupset →
       _state_group (Melee.data 0 16 0) = name
       ∧ ∀ groupset' name',
           (groupset', name') ∈ STATE_GROUPS → (16 : Z) ∈ groupset' →
           groupset' = groupset ∧ name' = name)
  ∧ (_state_group (Melee.data 0 16 0) ≠ "OTHER" →
     ∃ groupset,
       (groupset, _state_group (Melee.data 0 16 0)) ∈ STATE_GROUPS
       ∧ (16 : Z) ∈ groupset)
  ∧ ((∀ groupset name, (groupset, name) ∈ STATE_GROUPS → (16 : Z) ∉ groupset) →
     _state_group (Melee.data 0 16 0) = "OTHER").
Proof.
  split; [exact sample_states_distinct|].
  exact (state_group_partition (Melee.data 0 16 0) sample_states_distinct).
Defined.

Lemma print_player_stats_no_zero_division_witness :
  map_Forall (λ (_ : string) (counter : gmap string Z),
                map_Forall (λ _ count, 0 < count) counter)
             ({[ "full_state" := {[ "WAIT" := 2; "DASH" := 1 ]};
                 "buttons" := ∅ ]} : gmap string (gmap string Z))
  ∧ (∃ lines,
       _print_player_stats "P1"
         {[ "full_state" := {[ "WAIT" := 2; "DASH" := 1 ]}; "buttons" := ∅ ]}
       = inr lines)
  ∧ (∀ axis counter,
       ({[ "full_state" := {[ "WAIT" := 2; "DASH" := 1 ]};
           "buttons" := ∅ ]} : gmap string (gmap string Z)) !! axis
       = Some counter →
       counter_total counter = 0 →
       counter = ∅
       ∧ for_each (percent_row (counter_total counter))
                  (take 10 (most_common counter)) = inr []).
Proof.
  assert (map_Forall (λ (_ : string) (counter : gmap string Z),
                        map_Forall (λ _ count, 0 < count) counter)
            ({[ "full_state" := {[ "WAIT" := 2; "DASH" := 1 ]};
                "buttons" := ∅ ]} : gmap string (gmap string Z))) as Hpos.
  { refine (bool_decide_unpack _ _). exact I. }
  split; [exact Hpos|].
  exact (print_player_stats_no_zero_division "P1" _ Hpos).
Defined.

(** The sample states classify as the table says. *)
Example state_group_samples :
  _state_group (Melee.data 0 14 0) = "WAIT"
  ∧ _state_group (Melee.data 0 40 0) = "WAIT"
  ∧ _state_group (Melee.data 0 15 0) = "WALK"
  ∧ _state_group (Melee.data 0 20 0) = "DASH"
  ∧ _state_group (Melee.data 0 21 0) = "OTHER".
Proof. repeat split. Qed.

(** Contiguous slots are summarised. *)
Example game_summary_slots_0_and_1 :
  ∃ summary, game_summary Melee.slots_0_and_1 = inr summary
             ∧ dom summary = {[ "P1 (MARTH)"; "P2 (FOX)" ]}.
Proof. eexists. split; reflexivity. Qed.
(** * Further properties of the program *)

(** ** Counting occurrences *)

Lemma Counter_fold_lookup (iterable : list string) (c : gmap string Z) value :
  foldl (λ c elem, <[elem := default 0 (c !! elem) + 1]> c) c iterable !! value
  = if decide (value ∈ iterable)
    then Some (default 0 (c !! value)
               + Z.of_nat (length (filter (λ elem, elem = value) iterable)))
    else c !! value.
Proof.
  revert c. induction iterable as [|elem l IH]; intros c.
  - cbn [foldl]. rewrite decide_False by apply not_elem_of_nil. reflexivity.
  - cbn [foldl]. rewrite IH.
    destruct (decide (elem = value)) as [->|Hne].
    + rewrite filter_cons_True by reflexivity.
      rewrite lookup_insert_eq. rewrite (decide_True (P := value ∈ value :: l)) by left.
      cbn [default from_option length]. unfold id.
      destruct (decide (value ∈ l)) as [Hin|Hnin].
      * f_equal. lia.
      * f_equal.
        assert (filter (λ elem, elem = value) l = []) as ->.
        { destruct (filter (λ elem, elem = value) l) as [|x xs] eqn:Hf;
            [reflexivity|].
          assert (x ∈ filter (λ elem, elem = value) l) as Hx
            by (rewrite Hf; left).
          apply list_elem_of_filter in Hx as [-> Hx]. contradiction. }
        simpl. lia.
    + rewrite filter_cons_False by exact Hne.
      rewrite lookup_insert_ne by exact Hne.
      destruct (decide (value ∈ l)) as [Hin|Hnin].
      * rewrite decide_True by (right; exact Hin). reflexivity.
      * rewrite decide_False; [reflexivity|].
        intros Hc. apply elem_of_cons in Hc as [->|Hc]; congruence.
Qed.

Lemma Counter_lookup (iterable : list string) value :
  Counter iterable !! value
  = if decide (value ∈ iterable)
    then Some (Z.of_nat (length (filter (λ elem, elem = value) iterable)))
    else None.
Proof.
  unfold Counter. rewrite Counter_fold_lookup, lookup_empty.
  destruct (decide (value ∈ iterable)); [|reflexivity].
  cbn [default from_option]. f_equal.
Qed.


(** ** The summarizer of one player *)

Lemma for_each_inl {A B} (f : A → result B) l e :
  for_each f l = inl e → ∃ x, x ∈ l ∧ f x = inl e.
Proof.
  induction l as [|x l IH]; simpl; [discriminate|].
  destruct (f x) as [e'|y] eqn:Hx; simpl.
  - intros [= <-]. exists x. split; [left|exact Hx].
  - destruct (for_each f l) as [e'|ys]; simpl; [|discriminate].
    intros [= <-]. destruct IH as (x' & Hx' & Hfx'); [reflexivity|].
    exists x'. split; [right|]; assumption.
Qed.

Lemma getitem_inl `{Countable K} {V} (d : gmap K V) k e :
  getitem d k = inl e → e = KeyError ∧ d !! k = None.
Proof.
  unfold getitem. destruct (d !! k); [discriminate|].
  intros [= <-]. split; reflexivity.
Qed.

Lemma summarize_player_frames_raises player_name first rest e :
  _summarize_player_frames player_name (first :: rest) false = inl e →
  e = KeyError
  ∧ ∃ fs key, fs ∈ first :: rest ∧ is_Some (first !! key) ∧ fs !! key = None.
Proof.
  unfold _summarize_player_frames. cbn [first_item bind ret].
  destruct (for_each _ (map_to_list first).*1) as [e'|kvs] eqn:Hkvs;
    cbn [bind ret]; [|discriminate].
  intros [= <-]. apply for_each_inl in Hkvs as (key & Hkey & Hcount).
  destruct (for_each (λ fs, getitem fs key) (first :: rest)) as [e2|values] eqn:Hv;
    cbn [bind ret] in Hcount; [|discriminate].
  injection Hcount as ->.
  apply for_each_inl in Hv as (fs & Hfs & Hget).
  apply getitem_inl in Hget as [-> Hnone]. split; [reflexivity|].
  exists fs, key. split; [exact Hfs|]. split; [|exact Hnone].
  apply list_elem_of_fmap in Hkey as ([k v] & -> & Hkv).
  apply elem_of_map_to_list in Hkv. simpl. eauto.
Qed.

Lemma summarize_player_frames_returns player_name first rest :
  (∀ fs, fs ∈ rest → dom first ⊆ dom fs) →
  ∃ tables,
    _summarize_player_frames player_name (first :: rest) false = inr tables
    ∧ dom tables = dom first.
Proof.
  intros Hkeys.
  destruct (_summarize_player_frames player_name (first :: rest) false)
    as [e|tables] eqn:Hsum.
  - exfalso. apply summarize_player_frames_raises in Hsum
      as (_ & fs & key & Hfs & Hkey & Hnone).
    apply elem_of_cons in Hfs as [->|Hfs].
    + rewrite Hnone in Hkey. destruct Hkey as [? [=]].
    + apply elem_of_dom in Hkey. apply (Hkeys fs Hfs) in Hkey.
      apply elem_of_dom in Hkey. rewrite Hnone in Hkey.
      destruct Hkey as [? [=]].
  - exists tables. split; [reflexivity|].
    apply summarize_player_frames_inv in Hsum
      as (first' & rest' & [= <- <-] & Haxes & _).
    apply set_eq. intros key. rewrite !elem_of_dom. apply Haxes.
Qed.

(** X1: the outcome of [_summarize_player_frames] (without logging):
    [IndexError] for an empty list; otherwise tables for exactly the keys
    of the first frame when every later frame has those keys; and
    [KeyError] when some later frame lacks one of them.  Keys that only
    later frames have are ignored. *)
Theorem summarize_player_frames_outcome player_name :
  _summarize_player_frames player_name [] false = inl IndexError
  ∧ (∀ first rest,
       (∀ fs, fs ∈ rest → dom first ⊆ dom fs) →
       ∃ tables,
         _summarize_player_frames player_name (first :: rest) false = inr tables
         ∧ dom tables = dom first)
  ∧ (∀ first rest fs key,
       fs ∈ rest → key ∈ dom first → key ∉ dom fs →
       _summarize_player_frames player_name (first :: rest) false = inl KeyError).
Proof.
  split; [reflexivity|]. split.
  - intros first rest. apply summarize_player_frames_returns.
  - intros first rest fs key Hfs Hkey Hmissing.
    destruct (_summarize_player_frames player_name (first :: rest) false)
      as [e|tables] eqn:Hsum.
    + apply summarize_player_frames_raises in Hsum as [-> _]. reflexivity.
    + exfalso. apply summarize_player_frames_inv in Hsum
        as (first' & rest' & [= <- <-] & Haxes & Hcount).
      apply elem_of_dom in Hkey. apply Haxes in Hkey as [counter Hcounter].
      destruct (Hcount key counter Hcounter) as (values & Hvalues & _).
      assert (fs ∈ first :: rest) as Hin by (right; exact Hfs).
      destruct (for_each_inr_elem_l _ _ _ _ Hvalues Hin) as (v & _ & Hget).
      unfold getitem in Hget. apply not_elem_of_dom in Hmissing.
      rewrite Hmissing in Hget. discriminate.
Qed.

Lemma getitem_values {V} (frame_stats : list (gmap string V)) key values :
  for_each (λ fs, getitem fs key) frame_stats = inr values →
  Forall2 (λ fs v, fs !! key = Some v) frame_stats values.
Proof.
  intros Hv. apply for_each_inr in Hv.
  eapply Forall2_impl; [exact Hv|].
  intros fs v. unfold getitem. destruct (fs !! key); [|discriminate].
  intros [= <-]. reflexivity.
Qed.

Lemma count_values (frame_stats : list (gmap string string)) key values value :
  Forall2 (λ fs v, fs !! key = Some v) frame_stats values →
  length (filter (λ elem, elem = value) values)
  = length (filter (λ fs, fs !! key = Some value) frame_stats).
Proof.
  induction 1 as [|fs v l vs Hfs Hrest IH]; [reflexivity|].
  destruct (decide (v = value)) as [->|Hne].
  - rewrite filter_cons_True by reflexivity.
    rewrite (filter_cons_True (λ fs, fs !! key = Some value)) by exact Hfs.
    simpl. rewrite IH. reflexivity.
  - rewrite filter_cons_False by exact Hne.
    rewrite (filter_cons_False (λ fs, fs !! key = Some value)) by congruence.
    exact IH.
Qed.

Lemma summarize_counts player_name frame_stats tables axis counter value :
  _summarize_player_frames player_name frame_stats false = inr tables →
  tables !! axis = Some counter →
  counter !! value
  = if decide (Exists (λ fs, fs !! axis = Some value) frame_stats)
    then Some (Z.of_nat (length (filter (λ fs, fs !! axis = Some value) frame_stats)))
    else None.
Proof.
  intros Hsum Hcounter.
  apply summarize_player_frames_inv in Hsum as (first & rest & _ & _ & Hcount).
  destruct (Hcount axis counter Hcounter) as (values & Hvalues & ->).
  apply getitem_values in Hvalues.
  rewrite Counter_lookup. rewrite (count_values _ _ _ value Hvalues).
  assert (value ∈ values ↔ ∃ fs, fs ∈ frame_stats ∧ fs !! axis = Some value)
    as Hiff.
  { clear Hcount Hcounter. induction Hvalues as [|fs v l vs Hfs Hrest IH].
    - split; [intros Hin; apply elem_of_nil in Hin; destruct Hin|].
      intros (fs & Hin & _). apply elem_of_nil in Hin. destruct Hin.
    - rewrite elem_of_cons, IH. split.
      + intros [->|(fs' & Hin & Hv)].
        * exists fs. split; [left|exact Hfs].
        * exists fs'. split; [right; exact Hin|exact Hv].
      + intros (fs' & Hin & Hv). apply elem_of_cons in Hin as [->|Hin].
        * left. congruence.
        * right. eauto. }
  rewrite <- Exists_exists in Hiff.
  destruct (decide (value ∈ values)) as [Hin|Hnin].
  - rewrite decide_True by (apply Hiff, Hin). reflexivity.
  - rewrite decide_False; [reflexivity|]. intros Hex. apply Hnin, Hiff, Hex.
Qed.

(** X2: in the tables [_summarize_player_frames] returns, the count of a
    category value on an axis is the number of frames that carry this
    value on this axis, and a value that no frame carries is not
    stored. *)
Theorem summarize_player_frames_counts player_name frame_stats tables
    axis counter value :
  _summarize_player_frames player_name frame_stats false = inr tables →
  tables !! axis = Some counter →
  default 0 (counter !! value)
  = Z.of_nat (length (filter (λ fs, fs !! axis = Some value) frame_stats))
  ∧ (is_Some (counter !! value)
     ↔ ∃ fs, fs ∈ frame_stats ∧ fs !! axis = Some value).
Proof.
  intros Hsum Hcounter.
  rewrite (summarize_counts _ _ _ _ _ value Hsum Hcounter).
  rewrite <- Exists_exists.
  destruct (decide (Exists (λ fs, fs !! axis = Some value) frame_stats))
    as [Hex|Hnex]; cbn [default from_option].
  - split; [reflexivity|]. split; [intros _; exact Hex|eauto].
  - split.
    + destruct (filter (λ fs, fs !! axis = Some value) frame_stats)
        as [|fs fss] eqn:Hf; [reflexivity|].
      exfalso. apply Hnex, Exists_exists. exists fs.
      assert (fs ∈ filter (λ fs, fs !! axis = Some value) frame_stats) as Hx
        by (rewrite Hf; left).
      apply list_elem_of_filter in Hx as [Hv Hx]. split; assumption.
    + split; [intros [? [=]]|]. intros Hex. contradiction.
Qed.

(** X3: logging changes nothing in what [_summarize_player_frames]
    returns or raises: the tables it prints hold positive counts, for
    which the Reporter forms no quotient with a zero total. *)
Theorem summarize_player_frames_log player_name frame_stats :
  _summarize_player_frames player_name frame_stats true
  = _summarize_player_frames player_name frame_stats false.
Proof.
  destruct (_summarize_player_frames player_name frame_stats false)
    as [e|tables] eqn:Hsum.
  - revert Hsum. unfold _summarize_player_frames.
    destruct (first_item frame_stats) as [e'|first]; cbn [bind ret];
      [intros [= <-]; reflexivity|].
    destruct (for_each _ (map_to_list first).*1) as [e'|kvs];
      cbn [bind ret]; [intros [= <-]; reflexivity|discriminate].
  - pose proof (summarize_player_frames_inv _ _ _ Hsum)
      as (first & rest & _ & _ & Hcount).
    assert (map_Forall (λ (_ : string) (counter : gmap string Z),
              map_Forall (λ _ count, 0 < count) counter) tables) as Hpos.
    { intros axis counter Hc.
      destruct (Hcount axis counter Hc) as (values & _ & ->).
      apply Counter_positive. }
    destruct (print_player_stats_total player_name tables Hpos) as [lines Hlines].
    revert Hsum. unfold _summarize_player_frames.
    destruct (first_item frame_stats) as [e'|first']; cbn [bind ret];
      [discriminate|].
    destruct (for_each _ (map_to_list first').*1) as [e'|kvs];
      cbn [bind ret]; [discriminate|].
    intros [= <-]. rewrite Hlines. reflexivity.
Qed.

(** ** Loops that store one item per round *)

Lemma for_fold_app {A S} (body : S → A → result S) s0 l1 l2 :
  for_fold body s0 (l1 ++ l2)
  = do s1 <- for_fold body s0 l1; for_fold body s1 l2.
Proof.
  revert s0. induction l1 as [|x l1 IH]; intros s0; simpl; [reflexivity|].
  destruct (body s0 x) as [e|s1]; simpl; [reflexivity|apply IH].
Qed.

Lemma for_fold_ext {A S} (body1 body2 : S → A → result S) s0 l :
  (∀ s x, body1 s x = body2 s x) →
  for_fold body1 s0 l = for_fold body2 s0 l.
Proof.
  intros Hext. revert s0. induction l as [|x l IH]; intros s0; simpl;
    [reflexivity|].
  rewrite Hext. destruct (body2 s0 x); simpl; [reflexivity|apply IH].
Qed.

Section StoreLoop.
Context {A V : Type} (entry : A → result (string * V)).

Lemma store_loop_entries l s0 s x :
  for_fold (store_entry entry) s0 l = inr s → x ∈ l → ∃ kv, entry x = inr kv.
Proof.
  revert s0. induction l as [|y l IH]; intros s0 Hfold Hx.
  - apply elem_of_nil in Hx. destruct Hx.
  - simpl in Hfold. unfold store_entry at 1 in Hfold.
    destruct (entry y) as [e|kv] eqn:Hy; simpl in Hfold; [discriminate|].
    apply elem_of_cons in Hx as [->|Hx]; [eauto|].
    apply (IH _ Hfold Hx).
Qed.


Lemma store_loop_keeps l s0 s k v :
  for_fold (store_entry entry) s0 l = inr s →
  s0 !! k = Some v →
  (∀ y v', y ∈ l → entry y ≠ inr (k, v')) →
  s !! k = Some v.
Proof.
  intros Hfold H0 Hother. revert Hfold.
  apply (for_fold_invariant (λ s, s !! k = Some v)); [exact H0|].
  intros s1 y s2 H1 Hy. unfold store_entry.
  destruct (entry y) as [e|[k' v']] eqn:Hentry; simpl; [discriminate|].
  intros [= <-]. rewrite lookup_insert_ne; [exact H1|].
  intros ->. apply (Hother y v' Hy Hentry).
Qed.

(** The value under a key is the one of the last round that stored it. *)
Lemma store_loop_last l1 x l2 s0 s k v :
  for_fold (store_entry entry) s0 (l1 ++ x :: l2) = inr s →
  entry x = inr (k, v) →
  (∀ y v', y ∈ l2 → entry y ≠ inr (k, v')) →
  s !! k = Some v.
Proof.
  intros Hfold Hx Hother. rewrite for_fold_app in Hfold.
  destruct (for_fold (store_entry entry) s0 l1) as [e|s1]; simpl in Hfold; [discriminate|].
  unfold store_entry at 1 in Hfold. rewrite Hx in Hfold. simpl in Hfold.
  apply (store_loop_keeps l2 _ s k v Hfold); [apply lookup_insert_eq|exact Hother].
Qed.

(** The keys of the result are the initial keys and the stored ones. *)
Lemma store_loop_dom l s0 s k :
  for_fold (store_entry entry) s0 l = inr s →
  is_Some (s !! k)
  ↔ is_Some (s0 !! k) ∨ ∃ x v, x ∈ l ∧ entry x = inr (k, v).
Proof.
  revert s0. induction l as [|y l IH]; intros s0 Hfold.
  - injection Hfold as <-. split; [tauto|].
    intros [Hs|(x & v & Hx & _)]; [exact Hs|].
    apply elem_of_nil in Hx. destruct Hx.
  - simpl in Hfold. unfold store_entry at 1 in Hfold.
    destruct (entry y) as [e|[k' v']] eqn:Hy; simpl in Hfold; [discriminate|].
    rewrite (IH _ Hfold). rewrite lookup_insert_is_Some. split.
    + intros [[<-|[_ Hs]]|(x & v & Hx & Hentry)].
      * right. exists y, v'. split; [left|exact Hy].
      * left. exact Hs.
      * right. exists x, v. split; [right; exact Hx|exact Hentry].
    + intros [Hs|(x & v & Hx & Hentry)].
      * destruct (decide (k' = k)); [left; left; assumption|].
        left. right. split; assumption.
      * apply elem_of_cons in Hx as [->|Hx].
        -- rewrite Hy in Hentry. injection Hentry as -> ->. left. left. reflexivity.
        -- right. eauto.
Qed.

Lemma store_loop_size l s0 s :
  for_fold (store_entry entry) s0 l = inr s → (size s ≤ size s0 + length l)%nat.
Proof.
  revert s0. induction l as [|y l IH]; intros s0 Hfold.
  - injection Hfold as <-. simpl. lia.
  - simpl in Hfold. unfold store_entry at 1 in Hfold.
    destruct (entry y) as [e|[k v]]; simpl in Hfold; [discriminate|].
    apply IH in Hfold. rewrite map_size_insert in Hfold.
    simpl. destruct (s0 !! k); unfold id in Hfold; lia.
Qed.

End StoreLoop.

Lemma enumerate_lookup {A} (l : list A) i :
  enumerate l !! i = pair i <$> l !! i.
Proof. unfold enumerate. apply list_lookup_imap. Qed.

Lemma enumerate_elem_of {A} (l : list A) (ix : nat * A) :
  ix ∈ enumerate l ↔ l !! ix.1 = Some ix.2.
Proof.
  rewrite list_elem_of_lookup. split.
  - intros [j Hj]. rewrite enumerate_lookup in Hj.
    destruct (l !! j) as [x|] eqn:Hl; [|discriminate].
    injection Hj as <-. exact Hl.
  - intros Hl. exists ix.1. rewrite enumerate_lookup, Hl.
    destruct ix. reflexivity.
Qed.

Lemma enumerate_split {A} (l : list A) i x :
  l !! i = Some x →
  enumerate l = (take i (enumerate l) ++ (i, x) :: drop (S i) (enumerate l))%list
  ∧ ∀ jy, jy ∈ drop (S i) (enumerate l) → (i < jy.1)%nat ∧ l !! jy.1 = Some jy.2.
Proof.
  intros Hl. split.
  - symmetry. apply take_drop_middle. rewrite enumerate_lookup, Hl. reflexivity.
  - intros jy Hjy. apply list_elem_of_lookup in Hjy as [k Hk].
    rewrite lookup_drop, enumerate_lookup in Hk.
    destruct (l !! (S i + k)%nat) as [y|] eqn:Hy; [|discriminate].
    injection Hk as <-. simpl. split; [lia|exact Hy].
Qed.

(** ** The match summarizer, player by player *)

Section SummaryMore.
Context `{Slippi}.

Lemma game_summary_store_loop (g : Game) :
  game_summary g
  = for_fold (store_entry (player_entry g)) ∅ (enumerate (omap id (players g))).
Proof.
  unfold game_summary. apply for_fold_ext. intros s [i pl].
  unfold store_entry, player_entry. cbn [fst snd].
  destruct (player_key_of pl) as [e|key]; cbn [bind ret]; [reflexivity|].
  destruct (for_each (λ f, getitem f i) (_handle_frame <$> frames g))
    as [e|frame_stats]; cbn [bind ret]; [reflexivity|].
  destruct (_summarize_player_frames key frame_stats false);
    reflexivity.
Qed.

Lemma player_entry_inr (g : Game) i player key tables :
  player_entry g (i, player) = inr (key, tables) →
  player_key_of player = inr key
  ∧ ∃ frame_stats,
      for_each (λ f, getitem f i) (_handle_frame <$> frames g) = inr frame_stats
      ∧ _summarize_player_frames key frame_stats false = inr tables.
Proof.
  unfold player_entry. cbn [fst snd].
  destruct (player_key_of player) as [e|key']; cbn [bind ret]; [discriminate|].
  destruct (for_each (λ f, getitem f i) (_handle_frame <$> frames g))
    as [e|frame_stats]; cbn [bind ret]; [discriminate|].
  destruct (_summarize_player_frames key' frame_stats false) as [e|tables'] eqn:Hsum;
    cbn [bind ret]; [discriminate|].
  intros [= -> ->]. split; [reflexivity|]. exists frame_stats. split; [reflexivity|exact Hsum].
Qed.

Lemma classified_slots (fl : list Frame) i frame_stats :
  for_each (λ f, getitem f i) (_handle_frame <$> fl) = inr frame_stats →
  Forall2 (λ f fs, ∃ p, ports f !! i = Some (Some p) ∧ fs = _handle_frame_port p)
          fl frame_stats.
Proof.
  intros Hfs. apply for_each_inr in Hfs. apply Forall2_fmap_l in Hfs.
  eapply Forall2_impl; [exact Hfs|].
  intros f fs Hget. cbn in Hget. unfold getitem in Hget.
  rewrite handle_frame_lookup in Hget.
  destruct (ports f !! i) as [[p|]|]; try discriminate.
  injection Hget as <-. eauto.
Qed.

Lemma handle_frame_port_lookup (port : Port) axis handler :
  (axis, handler) ∈ FRAME_DATA_HANDLERS →
  _handle_frame_port port !! axis = Some (handler (leader port)).
Proof.
  intros Hin. rewrite handle_frame_port_items. unfold FRAME_DATA_HANDLERS in Hin.
  repeat (apply elem_of_cons in Hin as [[= -> ->]|Hin]);
    [reflexivity..|].
  apply elem_of_nil in Hin. destruct Hin.
Qed.

Lemma count_slot_values axis handler i (fl : list Frame) frame_stats value :
  (axis, handler) ∈ FRAME_DATA_HANDLERS →
  Forall2 (λ f fs, ∃ p, ports f !! i = Some (Some p) ∧ fs = _handle_frame_port p)
          fl frame_stats →
  length (filter (λ fs, fs !! axis = Some value) frame_stats)
  = length (filter (λ f, slot_value handler i f = Some value) fl).
Proof.
  intros Hin. induction 1 as [|f fs l fss (p & Hp & ->) Hrest IH]; [reflexivity|].
  assert (_handle_frame_port p !! axis = slot_value handler i f) as Heq.
  { unfold slot_value. rewrite Hp. apply handle_frame_port_lookup, Hin. }
  destruct (decide (slot_value handler i f = Some value)) as [Hv|Hv].
  - rewrite (filter_cons_True (λ f, slot_value handler i f = Some value)) by exact Hv.
    rewrite filter_cons_True by congruence. simpl. rewrite IH. reflexivity.
  - rewrite (filter_cons_False (λ f, slot_value handler i f = Some value)) by exact Hv.
    rewrite filter_cons_False by congruence. exact IH.
Qed.

(** X4: [game_summary] pairs players with slots by rank: the tables
    stored under the key of the [i]-th present player (when no later
    present player has the same key) count, on every axis, the values
    the handler gives for slot [i] of the frames. *)
Theorem game_summary_pairs_by_rank (g : Game) summary i player key :
  game_summary g = inr summary →
  omap id (players g) !! i = Some player →
  player_key_of player = inr key →
  (∀ j later, (i < j)%nat → omap id (players g) !! j = Some later →
              player_key_of later ≠ inr key) →
  ∃ tables, summary !! key = Some tables
    ∧ ∀ axis handler, (axis, handler) ∈ FRAME_DATA_HANDLERS →
        ∃ counter, tables !! axis = Some counter
          ∧ ∀ value,
              default 0 (counter !! value)
              = Z.of_nat (length (filter (λ f, slot_value handler i f = Some value)
                                         (frames g))).
Proof.
  intros Hsum Hplayer Hkey Hlast.
  pose proof Hsum as Hfold. rewrite game_summary_store_loop in Hfold.
  destruct (enumerate_split _ _ _ Hplayer) as [Hsplit Hlater].
  assert ((i, player) ∈ enumerate (omap id (players g))) as Hin
    by (apply enumerate_elem_of; exact Hplayer).
  destruct (store_loop_entries _ _ _ _ _ Hfold Hin) as [[key' tables] Hentry].
  pose proof (player_entry_inr _ _ _ _ _ Hentry) as (Hkey' & frame_stats & Hfs & Hs).
  assert (key' = key) as -> by congruence.
  exists tables. split.
  - rewrite Hsplit in Hfold.
    apply (store_loop_last _ _ _ _ _ _ _ _ Hfold Hentry).
    intros [j later] v' Hj Hentry'.
    destruct (Hlater _ Hj) as [Hlt Hlookup]. cbn [fst snd] in *.
    apply player_entry_inr in Hentry' as [Hk _].
    apply (Hlast j later Hlt Hlookup Hk).
  - intros axis handler Haxis.
    apply classified_slots in Hfs.
    assert (is_Some (tables !! axis)) as [counter Hcounter].
    { pose proof (summarize_player_frames_inv _ _ _ Hs)
        as (first & rest & -> & Haxes & _).
      apply Haxes. inversion Hfs as [|f fs l fss (p & _ & ->) Hrest]; subst.
      rewrite (handle_frame_port_lookup p axis handler Haxis). eauto. }
    exists counter. split; [exact Hcounter|]. intros value.
    rewrite (summarize_counts _ _ _ _ _ value Hs Hcounter).
    rewrite (count_slot_values axis handler i _ _ value Haxis Hfs).
    destruct (decide (Exists _ frame_stats)) as [Hex|Hnex];
      cbn [default from_option]; [reflexivity|].
    destruct (filter (λ f, slot_value handler i f = Some value) (frames g))
      as [|f fl] eqn:Hf; [reflexivity|].
    exfalso. apply Hnex.
    assert (length (filter (λ fs, fs !! axis = Some value) frame_stats) ≠ 0%nat)
      as Hlen.
    { rewrite (count_slot_values axis handler i _ _ value Haxis Hfs), Hf.
      discriminate. }
    destruct (filter (λ fs, fs !! axis = Some value) frame_stats)
      as [|fs fss] eqn:Hfss; [contradiction|].
    assert (fs ∈ filter (λ fs, fs !! axis = Some value) frame_stats) as Hx
      by (rewrite Hfss; left).
    apply list_elem_of_filter in Hx as [Hv Hx].
    apply Exists_exists. eauto.
Qed.


Lemma game_summary_dom (g : Game) summary key :
  game_summary g = inr summary →
  key ∈ dom summary
  ↔ ∃ player, player ∈ omap id (players g) ∧ player_key_of player = inr key.
Proof.
  intros Hfold. rewrite game_summary_store_loop in Hfold.
  rewrite elem_of_dom, (store_loop_dom _ _ _ _ key Hfold), lookup_empty.
  split.
  - intros [[? [=]]|([i player] & tables & Hin & Hentry)].
    apply enumerate_elem_of in Hin. cbn [fst snd] in Hin.
    apply player_entry_inr in Hentry as [Hkey _].
    exists player. split; [|exact Hkey].
    apply list_elem_of_lookup. eauto.
  - intros (player & Hin & Hkey). right.
    apply list_elem_of_lookup in Hin as [i Hi].
    assert ((i, player) ∈ enumerate (omap id (players g))) as Hin
      by (apply enumerate_elem_of; exact Hi).
    destruct (store_loop_entries _ _ _ _ _ Hfold Hin) as [[key' tables] Hentry].
    pose proof (player_entry_inr _ _ _ _ _ Hentry) as [Hkey' _].
    assert (key' = key) as -> by congruence.
    exists (i, player), tables. split; assumption.
Qed.

(** X6: the keys of a summary are the keys of the present players; as
    present players with the same key share one entry, the summary has
    at most as many entries as the match has present players. *)
Theorem game_summary_keys (g : Game) summary :
  game_summary g = inr summary →
  (∀ key, key ∈ dom summary
     ↔ ∃ player, player ∈ omap id (players g) ∧ player_key_of player = inr key)
  ∧ (size summary ≤ length (omap id (players g)))%nat.
Proof.
  intros Hsum. split; [intros key; apply game_summary_dom, Hsum|].
  rewrite game_summary_store_loop in Hsum.
  pose proof (store_loop_size _ _ _ _ Hsum) as Hsize.
  rewrite map_size_empty in Hsize. unfold enumerate in Hsize.
  rewrite length_imap in Hsize. lia.
Qed.

(** X7: in each frame the classifier stores exactly the occupied slots,
    each under its own index, with the value of each of the four
    handlers under the handler's name and nothing else. *)
Theorem handle_frame_classifies (frame : Frame) i :
  match ports frame !! i with
  | Some (Some frame_port) =>
      ∃ stats, _handle_frame frame !! i = Some stats
        ∧ (∀ axis handler, (axis, handler) ∈ FRAME_DATA_HANDLERS →
             stats !! axis = Some (handler (leader frame_port)))
        ∧ (∀ axis, is_Some (stats !! axis) → axis ∈ FRAME_DATA_HANDLERS.*1)
  | _ => _handle_frame frame !! i = None
  end.
Proof.
  rewrite handle_frame_lookup.
  destruct (ports frame !! i) as [[p|]|]; try reflexivity.
  exists (_handle_frame_port p). split; [reflexivity|]. split.
  - intros axis handler. apply handle_frame_port_lookup.
  - intros axis. apply handle_frame_port_axes.
Qed.

End SummaryMore.

(** ** Cross-match aggregation, count by count *)

Lemma Counter_add_insert_l (a b : gmap string Z) k v :
  a !! k = None →
  Counter_add (<[k := v]> a) b
  = (if decide (v + default 0 (b !! k) > 0)
     then <[k := v + default 0 (b !! k)]> (Counter_add a (delete k b))
     else Counter_add a (delete k b)).
Proof.
  intros Hk. apply map_eq. intros j.
  assert (Counter_add a (delete k b) !! k = None) as Hnone.
  { rewrite lookup_Counter_add, Hk, lookup_delete_eq. reflexivity. }
  destruct (decide (j = k)) as [->|Hne].
  - rewrite lookup_Counter_add, lookup_insert_eq.
    case_decide as Hpos.
    + rewrite lookup_insert_eq. unfold Counter_add_item.
      destruct (b !! k); cbn [default from_option id] in *;
        rewrite decide_True by exact Hpos; reflexivity.
    + rewrite Hnone. unfold Counter_add_item.
      destruct (b !! k); cbn [default from_option id] in *;
        rewrite decide_False by exact Hpos; reflexivity.
  - assert (Counter_add (<[k := v]> a) b !! j = Counter_add a (delete k b) !! j)
      as Heq.
    { rewrite !lookup_Counter_add, lookup_insert_ne, lookup_delete_ne by congruence.
      reflexivity. }
    rewrite Heq. case_decide; [|reflexivity].
    rewrite lookup_insert_ne by congruence. reflexivity.
Qed.

Lemma counter_total_delete_default (b : gmap string Z) k :
  counter_total b = counter_total (delete k b) + default 0 (b !! k).
Proof.
  destruct (b !! k) as [v|] eqn:Hk; cbn [default from_option id].
  - apply counter_total_delete, Hk.
  - rewrite delete_id by exact Hk. lia.
Qed.

(** Adding counters of non-negative counts adds their totals. *)
Lemma counter_total_add (a b : gmap string Z) :
  map_Forall (λ _ count, 0 ≤ count) a →
  map_Forall (λ _ count, 0 ≤ count) b →
  counter_total (Counter_add a b) = counter_total a + counter_total b.
Proof.
  revert b. induction a as [|k v a Hk IH] using map_ind; intros b Ha Hb.
  - assert (counter_total (∅ : gmap string Z) = 0) as ->
      by (unfold counter_total; apply map_fold_empty).
    rewrite Counter_add_comm.
    induction b as [|k v b Hk IHb] using map_ind.
    + rewrite Counter_add_empty. reflexivity.
    + apply map_Forall_insert in Hb as [Hv Hb]; [|exact Hk].
      rewrite Counter_add_insert_l by exact Hk.
      rewrite lookup_empty, delete_empty. cbn [default from_option id].
      rewrite counter_total_insert by exact Hk.
      case_decide.
      * rewrite counter_total_insert.
        -- rewrite (IHb Hb). lia.
        -- rewrite lookup_Counter_add, Hk, lookup_empty. reflexivity.
      * rewrite (IHb Hb). lia.
  - apply map_Forall_insert in Ha as [Hv Ha]; [|exact Hk].
    assert (0 ≤ default 0 (b !! k)) as Hbk.
    { destruct (b !! k) as [w|] eqn:Hw; cbn [default from_option id]; [|lia].
      apply (Hb k w Hw). }
    assert (map_Forall (λ _ count, 0 ≤ count) (delete k b)) as Hb'.
    { intros j w Hj. apply lookup_delete_Some in Hj as [_ Hj]. apply (Hb j w Hj). }
    rewrite Counter_add_insert_l by exact Hk.
    rewrite counter_total_insert by exact Hk.
    rewrite (counter_total_delete_default b k).
    case_decide.
    + rewrite counter_total_insert.
      * rewrite (IH _ Ha Hb'). lia.
      * rewrite lookup_Counter_add, Hk, lookup_delete_eq. reflexivity.
    + rewrite (IH _ Ha Hb'). lia.
Qed.

Lemma axis_total_default s player axis :
  axis_total s player axis
  = counter_total (default ∅ (default ∅ (s !! player) !! axis)).
Proof.
  unfold axis_total.
  assert (counter_total (∅ : gmap string Z) = 0) as Hempty
    by (unfold counter_total; apply map_fold_empty).
  destruct (s !! player) as [tables|]; cbn [default from_option id].
  - destruct (tables !! axis); cbn [default from_option id]; [reflexivity|].
    rewrite Hempty. reflexivity.
  - rewrite lookup_empty. cbn [default from_option id]. rewrite Hempty.
    reflexivity.
Qed.

Lemma count_at_default s player axis value :
  count_at s player axis value
  = default ∅ (default ∅ (s !! player) !! axis) !! value.
Proof.
  unfold count_at.
  destruct (s !! player) as [tables|]; cbn [default from_option id].
  - destruct (tables !! axis); cbn [default from_option id]; [reflexivity|].
    rewrite lookup_empty. reflexivity.
  - rewrite !lookup_empty. cbn [default from_option id]. rewrite lookup_empty.
    reflexivity.
Qed.

Lemma nonneg_counts_default s player axis :
  nonneg_counts s →
  map_Forall (λ _ count, 0 ≤ count) (default ∅ (default ∅ (s !! player) !! axis)).
Proof.
  intros Hs. destruct (s !! player) as [tables|] eqn:Hp;
    cbn [default from_option id].
  - destruct (tables !! axis) as [counter|] eqn:Ha;
      cbn [default from_option id]; [|apply map_Forall_empty].
    apply (Hs player tables Hp axis counter Ha).
  - rewrite lookup_empty. apply map_Forall_empty.
Qed.

(** The counter a merge stores for a player and an axis, as far as its
    entries and total go, is the sum of the two sides' counters. *)
Lemma merge_game_stats_counter first second player axis :
  default ∅ (default ∅ (merge_game_stats first second !! player) !! axis)
  = Counter_add (default ∅ (default ∅ (first !! player) !! axis))
                (default ∅ (default ∅ (second !! player) !! axis)).
Proof.
  rewrite lookup_merge_game_stats.
  destruct (first !! player) as [t1|], (second !! player) as [t2|];
    cbn [default from_option id];
    rewrite ?lookup_merge_player_stats, ?lookup_empty;
    cbn [default from_option id]; rewrite ?lookup_empty;
    cbn [default from_option id];
    try (destruct (t1 !! axis)); try (destruct (t2 !! axis));
    cbn [default from_option id]; rewrite ?Counter_add_empty; reflexivity.
Qed.

(** X8: the players of a merge are the players of either side, and the
    axes of a player in the merge are the axes the player has on either
    side. *)
Theorem merge_game_stats_keys first second :
  dom (merge_game_stats first second) = dom first ∪ dom second
  ∧ ∀ player tables, merge_game_stats first second !! player = Some tables →
      dom tables = dom (default ∅ (first !! player))
                   ∪ dom (default ∅ (second !! player)).
Proof.
  split.
  - apply set_eq. intros player.
    rewrite elem_of_union, !elem_of_dom, lookup_merge_game_stats.
    destruct (first !! player), (second !! player);
      rewrite !is_Some_alt; tauto.
  - intros player tables Hlook. rewrite lookup_merge_game_stats in Hlook.
    assert (tables = _merge_player_stats (default ∅ (first !! player))
                                         (default ∅ (second !! player))) as ->.
    { destruct (first !! player), (second !! player); simplify_eq; reflexivity. }
    apply set_eq. intros axis.
    rewrite elem_of_union, !elem_of_dom, lookup_merge_player_stats.
    destruct (default ∅ (first !! player) !! axis),
             (default ∅ (second !! player) !! axis);
      rewrite !is_Some_alt; tauto.
Qed.

Lemma merge_counts_add first second player axis value :
  nonneg_counts first → nonneg_counts second →
  default 0 (count_at (merge_game_stats first second) player axis value)
  = default 0 (count_at first player axis value)
    + default 0 (count_at second player axis value).
Proof.
  intros H1 H2. rewrite !count_at_default, merge_game_stats_counter.
  rewrite lookup_Counter_add.
  pose proof (nonneg_counts_default first player axis H1) as Ha.
  pose proof (nonneg_counts_default second player axis H2) as Hb.
  set (a := default ∅ (default ∅ (first !! player) !! axis)) in *.
  set (b := default ∅ (default ∅ (second !! player) !! axis)) in *.
  destruct (a !! value) as [x|] eqn:Hx, (b !! value) as [y|] eqn:Hy;
    try (apply Ha in Hx); try (apply Hb in Hy);
    unfold Counter_add_item; cbn [default from_option id];
    try case_decide; cbn [default from_option id]; lia.
Qed.

Lemma merge_totals_add first second player axis :
  nonneg_counts first → nonneg_counts second →
  axis_total (merge_game_stats first second) player axis
  = axis_total first player axis + axis_total second player axis.
Proof.
  intros H1 H2. rewrite !axis_total_default, merge_game_stats_counter.
  apply counter_total_add; apply nonneg_counts_default; assumption.
Qed.

(** X9: for statistics of non-negative counts, a merge adds count by
    count: the count of a category value is the sum of its counts on the
    two sides (a missing count being zero), and so is the total of every
    axis of every player. *)
Theorem merge_game_stats_adds first second :
  nonneg_counts first → nonneg_counts second →
  (∀ player axis value,
     default 0 (count_at (merge_game_stats first second) player axis value)
     = default 0 (count_at first player axis value)
       + default 0 (count_at second player axis value))
  ∧ (∀ player axis,
       axis_total (merge_game_stats first second) player axis
       = axis_total first player axis + axis_total second player axis).
Proof.
  intros H1 H2. split.
  - intros player axis value. apply merge_counts_add; assumption.
  - intros player axis. apply merge_totals_add; assumption.
Qed.

(** X10: a merge stores positive counts only; merging with the empty
    statistics keeps the positive counts of the other side and drops its
    zero and negative ones. *)
Theorem merge_game_stats_normalises (s : gmap string (gmap string (gmap string Z))) :
  (∀ other, positive_counts (merge_game_stats other s))
  ∧ ∀ player axis value,
      count_at (merge_game_stats ∅ s) player axis value
      = match count_at s player axis value with
        | Some count => if decide (count > 0) then Some count else None
        | None => None
        end.
Proof.
  split; [intros other; apply merge_game_stats_positive|].
  intros player axis value.
  rewrite !count_at_default, merge_game_stats_counter, lookup_Counter_add.
  rewrite !lookup_empty. cbn [default from_option id]. rewrite !lookup_empty.
  cbn [default from_option id]. rewrite lookup_empty.
  destruct (default ∅ (default ∅ (s !! player) !! axis) !! value) as [count|];
    [|reflexivity].
  unfold Counter_add_item. cbn [default from_option id].
  replace (0 + count) with count by lia. reflexivity.
Qed.


(** ** The batch loop *)

Section BatchMore.
Context `{Slippi}.

Lemma game_summary_axis_total (g : Game) summary player axis :
  game_summary g = inr summary →
  axis_total summary player axis = frames_counted g player axis.
Proof.
  intros Hsum. unfold axis_total, frames_counted.
  destruct (summary !! player) as [tables|] eqn:Hp.
  - destruct (game_summary_invariant g summary Hsum player tables Hp)
      as [Haxes Hcount].
    assert (Exists (λ pl, player_key_of pl = inr player) (omap id (players g)))
      as Hex.
    { apply Exists_exists, (game_summary_dom g summary player Hsum).
      apply elem_of_dom. eauto. }
    destruct (tables !! axis) as [counter|] eqn:Ha.
    + rewrite decide_True; [apply (Hcount axis counter Ha)|].
      split; [|exact Hex]. apply Haxes. eauto.
    + rewrite decide_False; [reflexivity|].
      intros [Haxis _]. apply Haxes in Haxis as [? Hc]. congruence.
  - rewrite decide_False; [reflexivity|].
    intros [_ Hex]. apply Exists_exists in Hex.
    apply (game_summary_dom g summary player Hsum), elem_of_dom in Hex
      as [? Hc]. congruence.
Qed.

Lemma combined_stats_fold_totals (games : list Game) s0 combined player axis :
  nonneg_counts s0 →
  for_fold (λ combined game,
      do this_game_stats <- game_summary game;
      ret (merge_game_stats combined this_game_stats)) s0 games = inr combined →
  axis_total combined player axis
  = axis_total s0 player axis
    + foldr (λ g acc, frames_counted g player axis + acc) 0 games.
Proof.
  revert s0. induction games as [|g games IH]; intros s0 H0 Hfold.
  - injection Hfold as <-. simpl. lia.
  - simpl in Hfold.
    destruct (game_summary g) as [e|sg] eqn:Hg; simpl in Hfold; [discriminate|].
    rewrite (IH _ (positive_nonneg_counts _ (merge_game_stats_positive s0 sg)) Hfold).
    rewrite merge_totals_add;
      [|exact H0|apply positive_nonneg_counts, (game_summary_positive g), Hg].
    rewrite (game_summary_axis_total g sg player axis Hg). simpl. lia.
Qed.

(** X11: over a batch that is summarised without an exception, the
    total of a player's axis in the running total is the number of
    frames of the matches in which the key is a present player's (zero
    for a name that is no axis). *)
Theorem combined_stats_totals (games : list Game) combined player axis :
  combined_stats games = inr combined →
  axis_total combined player axis
  = foldr (λ g acc, frames_counted g player axis + acc) 0 games.
Proof.
  intros Hc. unfold combined_stats in Hc.
  rewrite (combined_stats_fold_totals games ∅ combined player axis); [|auto..].
  - unfold axis_total. rewrite lookup_empty. lia.
  - intros p tables Hp. rewrite lookup_empty in Hp. discriminate.
Qed.

(** X12: the batch loop does not recover from the summarizer: the first
    match whose summary raises makes the loop raise the same exception,
    whatever matches follow. *)
Theorem combined_stats_aborts (before after : list Game) (g : Game) e :
  (∀ g', g' ∈ before → ∃ summary, game_summary g' = inr summary) →
  game_summary g = inl e →
  combined_stats (before ++ g :: after) = inl e.
Proof.
  intros Hbefore Hg. unfold combined_stats. rewrite for_fold_app.
  destruct (for_fold_total
    (λ combined game,
       do this_game_stats <- game_summary game;
       ret (merge_game_stats combined this_game_stats)) before ∅) as [s1 Hs1].
  - intros s g' Hg'. destruct (Hbefore g' Hg') as [summary Hsum].
    rewrite Hsum. eexists. reflexivity.
  - rewrite Hs1. simpl. rewrite Hg. reflexivity.
Qed.

(** X13: whatever the batch, a running total that was computed holds
    positive counts only, and the final report of it raises nothing. *)
Theorem batch_report_never_fails (games : list Game) combined :
  combined_stats games = inr combined →
  positive_counts combined ∧ ∃ lines, report combined = inr lines.
Proof.
  intros Hc. pose proof (combined_stats_positive games combined Hc) as Hpos.
  split; [exact Hpos|]. apply report_total, Hpos.
Qed.

(** X14: [load_all] yields, in the order of the paths, the games of
    those of the first five matched paths that load, and prints one
    message for each of the others; a failed load does not end the
    loop. *)
Theorem load_all_events (load : string → string + Game) (matched : list string) :
  length (load_all load matched) = Nat.min 5 (length matched)
  ∧ yielded (load_all load matched)
    = omap (λ gamefile, match load gamefile with
                        | inr game => Some game
                        | inl _ => None
                        end) (take 5 matched)
  ∧ ∀ k gamefile, take 5 matched !! k = Some gamefile →
      load_all load matched !! k
      = Some (match load gamefile with
              | inr game => Yield game
              | inl e => Print ("Unable to load " +:+ gamefile +:+ ": " +:+ e)
              end).
Proof.
  unfold load_all. split; [|split].
  - rewrite length_fmap, length_take. reflexivity.
  - unfold yielded. induction (take 5 matched) as [|gamefile l IH];
      [reflexivity|].
    csimpl. rewrite IH. destruct (load gamefile); reflexivity.
  - intros k gamefile Hk. rewrite list_lookup_fmap, Hk. reflexivity.
Qed.

End BatchMore.

(** ** The Reporter's rows and failures *)

#[local] Instance count_ge_total : Total count_ge.
Proof. intros x y. unfold count_ge. lia. Qed.

#[local] Instance count_ge_transitive : Transitive count_ge.
Proof. intros x y z. unfold count_ge. lia. Qed.

Lemma most_common_take_sorted (counter : gmap string Z) (n : nat) :
  Sorted count_ge (take n (most_common counter)).
Proof.
  apply StronglySorted_Sorted.
  pose proof (StronglySorted_merge_sort count_ge (map_to_list counter)) as Hs.
  rewrite <- (take_drop n (merge_sort count_ge (map_to_list counter))) in Hs.
  apply StronglySorted_app_1_l in Hs. exact Hs.
Qed.

Lemma most_common_take_elem (counter : gmap string Z) (n : nat) sc :
  sc ∈ take n (most_common counter) → counter !! sc.1 = Some sc.2.
Proof.
  intros Hin. apply subseteq_take in Hin. unfold most_common in Hin.
  rewrite merge_sort_Permutation in Hin. destruct sc as [value count].
  apply elem_of_map_to_list in Hin. exact Hin.
Qed.

Lemma percent_rows total l rows :
  for_each (percent_row total) l = inr rows →
  rows = (λ sc : string * Z,
            {| numerator := 100 * sc.2; denominator := total; stat := sc.1 |}) <$> l.
Proof.
  intros Hrows. apply for_each_inr in Hrows.
  induction Hrows as [|sc r l rows Hr Hrest IH]; [reflexivity|].
  unfold percent_row in Hr. case_decide; [discriminate|].
  injection Hr as <-. csimpl. rewrite IH. reflexivity.
Qed.

(** X15: when the Reporter returns, its lines are the player's name and
    then one block per axis: the axis name and at most ten rows, in
    descending order of count, each row giving a stored category value
    with [100 * count] over the total of the axis. *)
Theorem print_player_stats_rows player_name
    (counters : gmap string (gmap string Z)) lines :
  _print_player_stats player_name counters = inr lines →
  ∃ blocks, lines = PlayerLine player_name :: concat blocks
    ∧ Forall2 (λ (kc : string * gmap string Z) block,
         ∃ rows, block = [AxisLine kc.1; RowsBlock rows]
           ∧ length rows = Nat.min 10 (size kc.2)
           ∧ Sorted (λ r1 r2, numerator r2 ≤ numerator r1) rows
           ∧ Forall (λ r, denominator r = counter_total kc.2
                          ∧ ∃ count, kc.2 !! stat r = Some count
                                     ∧ numerator r = 100 * count) rows)
       (map_to_list counters) blocks.
Proof.
  unfold _print_player_stats.
  destruct (for_each _ (map_to_list counters)) as [e|blocks] eqn:Hblocks;
    cbn [bind ret]; [discriminate|].
  intros [= <-]. exists blocks. split; [reflexivity|].
  apply for_each_inr in Hblocks.
  eapply Forall2_impl; [exact Hblocks|].
  intros [axis counter] block Hblock. cbn [fst snd] in *.
  destruct (for_each (percent_row (counter_total counter))
                     (take 10 (most_common counter))) as [e|rows] eqn:Hrows;
    cbn [bind ret] in Hblock; [discriminate|].
  injection Hblock as <-. exists rows. split; [reflexivity|].
  apply percent_rows in Hrows. subst rows. split; [|split].
  - rewrite length_fmap, length_take. unfold most_common.
    rewrite merge_sort_Permutation, length_map_to_list. reflexivity.
  - apply (Sorted_fmap _ count_ge); [|apply most_common_take_sorted].
    intros x y. unfold count_ge. simpl. lia.
  - apply Forall_fmap, Forall_forall. intros sc Hsc. simpl.
    split; [reflexivity|]. exists sc.2. split; [|reflexivity].
    apply (most_common_take_elem counter 10), Hsc.
Qed.

Lemma percent_row_inl total sc e :
  percent_row total sc = inl e → e = ZeroDivisionError ∧ total = 0.
Proof.
  unfold percent_row. case_decide; [|discriminate].
  intros [= <-]. split; [reflexivity|assumption].
Qed.

Lemma print_player_stats_inl player_name (counters : gmap string (gmap string Z)) e :
  _print_player_stats player_name counters = inl e →
  e = ZeroDivisionError
  ∧ ∃ axis counter, counters !! axis = Some counter
                    ∧ counter ≠ ∅ ∧ counter_total counter = 0.
Proof.
  unfold _print_player_stats.
  destruct (for_each _ (map_to_list counters)) as [e'|blocks] eqn:Hblocks;
    cbn [bind ret]; [|discriminate].
  intros [= ->]. apply for_each_inl in Hblocks as ([axis counter] & Hin & Hblock).
  cbn [fst snd] in Hblock.
  destruct (for_each (percent_row (counter_total counter))
                     (take 10 (most_common counter))) as [e'|rows] eqn:Hrows;
    cbn [bind ret] in Hblock; [|discriminate].
  injection Hblock as ->.
  apply for_each_inl in Hrows as (sc & Hsc & Hrow).
  apply percent_row_inl in Hrow as [-> Hzero]. split; [reflexivity|].
  exists axis, counter. split; [apply elem_of_map_to_list, Hin|].
  split; [|exact Hzero].
  intros ->. rewrite most_common_empty in Hsc. apply elem_of_nil in Hsc.
  destruct Hsc.
Qed.

(** X16: the Reporter raises exactly when some axis has a non-empty
    table whose counts sum to zero, and what it raises then is
    [ZeroDivisionError]; in every other case it returns its lines. *)
Theorem print_player_stats_failure player_name
    (counters : gmap string (gmap string Z)) :
  (_print_player_stats player_name counters = inl ZeroDivisionError
   ↔ ∃ axis counter, counters !! axis = Some counter
                     ∧ counter ≠ ∅ ∧ counter_total counter = 0)
  ∧ ((∃ lines, _print_player_stats player_name counters = inr lines)
     ↔ ∀ axis counter, counters !! axis = Some counter →
         counter = ∅ ∨ counter_total counter ≠ 0).
Proof.
  assert ((∃ axis counter, counters !! axis = Some counter
                           ∧ counter ≠ ∅ ∧ counter_total counter = 0) →
          _print_player_stats player_name counters = inl ZeroDivisionError)
    as Hbad.
  { intros (axis & counter & Hlook & Hne & Hzero).
    destruct (_print_player_stats player_name counters) as [e|lines] eqn:Hprint.
    - apply print_player_stats_inl in Hprint as [-> _]. reflexivity.
    - exfalso. unfold _print_player_stats in Hprint.
      destruct (for_each _ (map_to_list counters)) as [e'|blocks] eqn:Hblocks;
        cbn [bind ret] in Hprint; [discriminate|].
      assert ((axis, counter) ∈ map_to_list counters) as Hin
        by (apply elem_of_map_to_list, Hlook).
      destruct (for_each_inr_elem_l _ _ _ _ Hblocks Hin) as (block & _ & Hblock).
      cbn [fst snd] in Hblock.
      destruct (for_each (percent_row (counter_total counter))
                         (take 10 (most_common counter))) as [e'|rows] eqn:Hrows;
        cbn [bind ret] in Hblock; [discriminate|].
      destruct (most_common counter) as [|sc rest] eqn:Hmc.
      + apply Hne, map_to_list_empty_iff, Permutation_nil_r.
        rewrite <- Hmc. unfold most_common. symmetry.
        apply merge_sort_Permutation.
      + cbn [take for_each] in Hrows. unfold percent_row at 1 in Hrows.
        rewrite decide_True in Hrows by exact Hzero. discriminate. }
  split.
  - split; [|exact Hbad]. intros Hprint.
    apply print_player_stats_inl in Hprint as [_ Hex]. exact Hex.
  - split.
    + intros [lines Hlines] axis counter Hlook.
      destruct (decide (counter = ∅)) as [|Hne]; [left; assumption|].
      right. intros Hzero. rewrite Hbad in Hlines; [discriminate|].
      exists axis, counter. auto.
    + intros Hall.
      destruct (_print_player_stats player_name counters) as [e|lines] eqn:Hprint;
        [|eauto].
      apply print_player_stats_inl in Hprint
        as (_ & axis & counter & Hlook & Hne & Hzero).
      destruct (Hall axis counter Hlook); contradiction.
Qed.

(** ** The extractors, value by value *)

Lemma append_empty (s : string) : ("" +:+ s) = s.
Proof. reflexivity. Qed.

Lemma append_String c (s t : string) : (String c s +:+ t) = String c (s +:+ t).
Proof. reflexivity. Qed.

Lemma append_comma_inj (x y r r' : string) :
  comma_free x → comma_free y →
  (x +:+ "," +:+ r) = (y +:+ "," +:+ r') → x = y ∧ r = r'.
Proof.
  revert y. induction x as [|a x IH]; intros [|c y] Hx Hy Heq;
    rewrite ?append_empty, ?append_String in Heq; simpl in Hx, Hy.
  - rewrite !append_empty in Heq. injection Heq as ->. split; reflexivity.
  - injection Heq as <- _. destruct Hy as [Hc _]. congruence.
  - injection Heq as -> _. destruct Hx as [Ha _]. congruence.
  - injection Heq as -> Heq. destruct Hx as [_ Hx], Hy as [_ Hy].
    destruct (IH y Hx Hy Heq) as [-> ->]. split; reflexivity.
Qed.

Lemma comma_free_no_append (x y r : string) :
  comma_free x → x ≠ (y +:+ "," +:+ r).
Proof.
  revert x. induction y as [|c y IH]; intros [|a x] Hx Heq;
    rewrite ?append_empty, ?append_String in Heq; simpl in Hx;
    try discriminate.
  - injection Heq as -> _. destruct Hx as [Ha _]. congruence.
  - injection Heq as _ Heq. destruct Hx as [_ Hx]. apply (IH x Hx Heq).
Qed.

Lemma concat_comma_inj (l1 l2 : list string) :
  l1 ≠ [] → l2 ≠ [] →
  Forall comma_free l1 → Forall comma_free l2 →
  String.concat "," l1 = String.concat "," l2 → l1 = l2.
Proof.
  revert l2. induction l1 as [|x l1 IH]; intros l2 Hn1 Hn2 H1 H2 Heq;
    [congruence|].
  destruct l2 as [|y l2]; [congruence|].
  apply Forall_cons in H1 as [Hx H1]. apply Forall_cons in H2 as [Hy H2].
  destruct l1 as [|x2 l1], l2 as [|y2 l2]; cbn [String.concat] in Heq.
  - congruence.
  - exfalso. apply (comma_free_no_append x y _ Hx Heq).
  - exfalso. symmetry in Heq. apply (comma_free_no_append y x _ Hy Heq).
  - destruct (append_comma_inj _ _ _ _ Hx Hy Heq) as [-> Hrest].
    f_equal. apply IH; [discriminate|discriminate|assumption..].
Qed.

Lemma dict_set_values {K V} `{EqDecision K} (d : list (K * V)) k v n :
  n ∈ (dict_set d k v).*2 → n = v ∨ n ∈ d.*2.
Proof.
  induction d as [|[k' v'] d IH]; simpl.
  - rewrite elem_of_cons, elem_of_nil. tauto.
  - case_decide; simpl; rewrite !elem_of_cons; [tauto|].
    intros [->|Hn]; [tauto|]. apply IH in Hn. tauto.
Qed.

Lemma dict_display_values {K V} `{EqDecision K} (items : list (K * V)) n :
  n ∈ (dict_display items).*2 → n ∈ items.*2.
Proof.
  unfold dict_display.
  assert (∀ d : list (K * V),
    n ∈ (foldl (λ d kv, dict_set d kv.1 kv.2) d items).*2 →
    n ∈ d.*2 ∨ n ∈ items.*2) as Hgen.
  { induction items as [|[k v] items IH]; intros d Hn; [left; exact Hn|].
    cbn [foldl fst snd] in Hn. apply IH in Hn as [Hn|Hn].
    - apply dict_set_values in Hn as [->|Hn]; [right; left|left; exact Hn].
    - right. right. exact Hn. }
  intros Hn. apply Hgen in Hn as [Hn|Hn]; [|exact Hn].
  apply elem_of_nil in Hn. destruct Hn.
Qed.

Section ExtractorsMore.
Context `{Slippi}.

#[local] Instance value_le_trans : Transitive value_le.
Proof. intros b c d. unfold value_le. lia. Qed.

(** X17: whatever the enumeration of states, the state_group extractor
    returns one of the four labels WAIT, WALK, DASH and OTHER. *)
Theorem state_group_range (port_data : Data) :
  _state_group port_data ∈ ["WAIT"; "WALK"; "DASH"; "OTHER"].
Proof.
  unfold _state_group.
  destruct (state_group_loop_label STATE_GROUPS (state (post port_data)))
    as [(groupset & Hin & _)|[-> _]].
  - assert (state_group_loop STATE_GROUPS (state (post port_data))
            ∈ STATE_GROUPS.*2) as Hname.
    { apply list_elem_of_fmap. exists (groupset, state_group_loop STATE_GROUPS (state (post port_data))).
      split; [reflexivity|exact Hin]. }
    apply dict_display_values in Hname. simpl in Hname.
    rewrite !elem_of_cons in *. tauto.
  - rewrite !elem_of_cons. tauto.
Qed.

(** X18: with the six named states distinct, the label is WAIT exactly
    for WAIT and SQUAT_WAIT, WALK exactly for the three walking states,
    DASH exactly for DASH, and OTHER exactly for every other state. *)
Theorem state_group_labels (port_data : Data) :
  NoDup [WAIT; SQUAT_WAIT; WALK_FAST; WALK_MIDDLE; WALK_SLOW; DASH] →
  let s := state (post port_data) in
  (_state_group port_data = "WAIT" ↔ s = WAIT ∨ s = SQUAT_WAIT)
  ∧ (_state_group port_data = "WALK"
     ↔ s = WALK_FAST ∨ s = WALK_MIDDLE ∨ s = WALK_SLOW)
  ∧ (_state_group port_data = "DASH" ↔ s = DASH)
  ∧ (_state_group port_data = "OTHER"
     ↔ s ∉ [WAIT; SQUAT_WAIT; WALK_FAST; WALK_MIDDLE; WALK_SLOW; DASH]).
Proof.
  intros Hdistinct s. unfold _state_group. fold s.
  rewrite (STATE_GROUPS_items Hdistinct).
  destruct (groups_disjoint s Hdistinct) as (D12 & D13 & D23).
  clear Hdistinct. cbn [state_group_loop].
  rewrite !not_elem_of_cons.
  pose proof (not_elem_of_nil s) as Hnil.
  repeat first [ setoid_rewrite elem_of_union in D12
               | setoid_rewrite elem_of_singleton in D12 ].
  repeat first [ setoid_rewrite elem_of_union in D13
               | setoid_rewrite elem_of_singleton in D13 ].
  repeat first [ setoid_rewrite elem_of_union in D23
               | setoid_rewrite elem_of_singleton in D23 ].
  repeat case_decide;
    repeat match goal with
           | Hm : context [_ ∈ _ ∪ _] |- _ => setoid_rewrite elem_of_union in Hm
           | Hm : context [_ ∈ {[ _ ]}] |- _ => setoid_rewrite elem_of_singleton in Hm
           end;
    repeat split; intros; try discriminate; tauto.
Qed.

Lemma sorted_insert_last b l :
  Forall (λ c, value_le c b) l → sorted_insert b l = (l ++ [b])%list.
Proof.
  induction 1 as [|c l Hc Hl IH]; simpl; [reflexivity|].
  rewrite decide_True by exact Hc. rewrite IH. reflexivity.
Qed.

(** A list in ascending order is left as it is by [sorted]. *)
Lemma sorted_fixed l : StronglySorted value_le l → sorted l = l.
Proof.
  intros Hl. unfold sorted.
  assert (∀ acc, Forall (λ c, Forall (value_le c) l) acc →
    foldl (λ acc b, sorted_insert b acc) acc l = (acc ++ l)%list) as Hgen.
  { induction Hl as [|b l Hl IH Hb]; intros acc Hacc.
    - simpl. rewrite app_nil_r. reflexivity.
    - cbn [foldl]. rewrite sorted_insert_last.
      + rewrite IH; [rewrite <- app_assoc; reflexivity|].
        apply Forall_app. split.
        * eapply Forall_impl; [exact Hacc|]. intros c Hc.
          apply Forall_cons in Hc as [_ Hc]. exact Hc.
        * constructor; [exact Hb|constructor].
      + eapply Forall_impl; [exact Hacc|]. intros c Hc.
        apply Forall_cons in Hc as [Hc _]. exact Hc. }
  apply (Hgen []). constructor.
Qed.

Lemma sorted_StronglySorted l : StronglySorted value_le (sorted l).
Proof.
  unfold sorted.
  assert (∀ acc, StronglySorted value_le acc →
    StronglySorted value_le (foldl (λ acc b, sorted_insert b acc) acc l)) as Hgen.
  { induction l as [|b l IH]; intros acc Hacc; simpl; [exact Hacc|].
    apply IH, sorted_insert_StronglySorted, Hacc. }
  apply Hgen. constructor.
Qed.

Lemma fmt_buttons_sorted l :
  _fmt_buttons (inl (sorted l)) = _fmt_buttons (inl l).
Proof.
  destruct l as [|b l]; [reflexivity|].
  assert (sorted (b :: l) ≠ []) as Hne.
  { intros Hnil. pose proof (sorted_Permutation (b :: l)) as Hp.
    rewrite Hnil in Hp. apply Permutation_nil_cons in Hp. exact Hp. }
  rewrite !fmt_buttons_list by (exact Hne || discriminate).
  rewrite (sorted_fixed (sorted (b :: l))) by apply sorted_StronglySorted.
  reflexivity.
Qed.

(** X19: with distinct, comma-free button names that do not start with
    a parenthesis, the buttons extractor tells held sets apart: two
    records with the same value hold the same buttons. *)
Theorem buttons_injective (port_data other : Data) :
  (∀ b c, button_name b = button_name c → b = c) →
  (∀ b, comma_free (button_name b)) →
  (∀ b, head_char (button_name b) ≠ Some "("%char) →
  _buttons port_data = _buttons other →
  pressed (physical (pre port_data)) ≡ₚ pressed (physical (pre other)).
Proof.
  intros Hinj Hcomma Hparen Heq.
  destruct (pressed (physical (pre port_data))) as [|b l] eqn:Hheld,
           (pressed (physical (pre other))) as [|c k] eqn:Hother.
  - reflexivity.
  - exfalso. apply (buttons_head_char other Hparen); [rewrite Hother; discriminate|].
    rewrite <- Heq. unfold _buttons. rewrite Hheld. reflexivity.
  - exfalso. apply (buttons_head_char port_data Hparen); [rewrite Hheld; discriminate|].
    rewrite Heq. unfold _buttons. rewrite Hother. reflexivity.
  - unfold _buttons in Heq. rewrite Hheld, Hother in Heq.
    rewrite !fmt_buttons_list in Heq by discriminate.
    apply concat_comma_inj in Heq.
    + assert (Inj (=) (=) button_name) as Hi by (intros x y; apply Hinj).
      apply (inj (fmap button_name)) in Heq.
      rewrite <- (sorted_Permutation (b :: l)), Heq. apply sorted_Permutation.
    + intros Hnil. apply fmap_nil_inv in Hnil.
      pose proof (sorted_Permutation (b :: l)) as Hp. rewrite Hnil in Hp.
      apply Permutation_nil_cons in Hp. exact Hp.
    + intros Hnil. apply fmap_nil_inv in Hnil.
      pose proof (sorted_Permutation (c :: k)) as Hp. rewrite Hnil in Hp.
      apply Permutation_nil_cons in Hp. exact Hp.
    + apply Forall_fmap, Forall_forall. intros x _. apply Hcomma.
    + apply Forall_fmap, Forall_forall. intros x _. apply Hcomma.
Qed.

End ExtractorsMore.

(** ** The per-port list functions *)

Lemma comprehension_inr {A B} (f : A → Legacy.error + B) l ys :
  Legacy.comprehension f l = inr ys ↔ Forall2 (λ x y, f x = inr y) l ys.
Proof.
  revert ys. induction l as [|x l IH]; intros ys; simpl.
  - split.
    + intros [= <-]. constructor.
    + intros Hf. inversion Hf. reflexivity.
  - split.
    + destruct (f x) as [e|y] eqn:Hx; [discriminate|].
      destruct (Legacy.comprehension f l) as [e|ys'] eqn:Hl; [discriminate|].
      intros [= <-]. constructor; [exact Hx|]. apply IH. reflexivity.
    + intros Hf. inversion Hf as [|? y ? ys' Hxy Hrest]; subst.
      simpl in Hxy. rewrite Hxy. apply IH in Hrest. rewrite Hrest. reflexivity.
Qed.

Lemma list_item_range {A} (l : list A) (i : Z) :
  Legacy.list_item l i = None ↔ i < - Z.of_nat (length l) ∨ Z.of_nat (length l) ≤ i.
Proof.
  unfold Legacy.list_item. repeat case_decide.
  - rewrite lookup_ge_None. lia.
  - rewrite lookup_ge_None. lia.
  - split; [lia|reflexivity].
Qed.

Section LegacyMore.
Context `{Slippi}.

Lemma port_leader_slot (f : Frame) (port : Z) d :
  0 ≤ port → Legacy.port_leader f port = inr d →
  ∃ p, ports f !! Z.to_nat port = Some (Some p) ∧ d = leader p.
Proof.
  intros Hport. unfold Legacy.port_leader, Legacy.list_item.
  rewrite decide_True by exact Hport.
  destruct (ports f !! Z.to_nat port) as [[p|]|]; try discriminate.
  intros [= <-]. eauto.
Qed.

(** X20: for a port index that is not negative, the tuples [buttons]
    returns are, frame by frame, the held buttons the classifier reads
    for that slot: formatting a tuple gives the ["buttons"] value of the
    classified frame. *)
Theorem legacy_buttons_classified (game : Game) (port : Z) tuples :
  0 ≤ port → Legacy.buttons game port = inr tuples →
  length tuples = length (frames game)
  ∧ ∀ k f, frames game !! k = Some f →
      ∃ tuple stats,
        tuples !! k = Some tuple
        ∧ _handle_frame f !! Z.to_nat port = Some stats
        ∧ stats !! "buttons" = Some (_fmt_buttons (inl tuple)).
Proof.
  intros Hport Hb. unfold Legacy.buttons in Hb. apply comprehension_inr in Hb.
  split; [symmetry; eapply Forall2_length, Hb|].
  intros k f Hk.
  destruct (Forall2_lookup_l _ _ _ _ _ Hb Hk) as (tuple & Htuple & Hf).
  cbn beta in Hf.
  destruct (Legacy.port_leader f port) as [e|d] eqn:Hd; [discriminate|].
  injection Hf as <-.
  destruct (port_leader_slot f port d Hport Hd) as (p & Hp & ->).
  exists (sorted (pressed (physical (pre (leader p))))), (_handle_frame_port p).
  split; [exact Htuple|]. split.
  - rewrite handle_frame_lookup, Hp. reflexivity.
  - rewrite handle_frame_port_items. rewrite !lookup_insert_ne by discriminate.
    rewrite lookup_insert_eq. unfold _buttons. rewrite fmt_buttons_sorted.
    reflexivity.
Qed.

(** X21: the per-port list functions on the first frame: with no frame
    they return the empty list for every port index; an index outside
    [-n, n) of the [n] slots raises [IndexError]; an index from the end
    reads the same slot as the index from the start; an empty slot
    raises [AttributeError]. *)
Theorem legacy_port_indexing (f : Frame) (rest : list Frame)
    (players : list (option Player)) (port : Z) :
  let n := Z.of_nat (length (ports f)) in
  let game := {| frames := f :: rest; players := players |} in
  let empty := {| frames := []; players := players |} in
  (Legacy.states empty port = inr [] ∧ Legacy.hitstun_buttons empty port = inr []
   ∧ Legacy.buttons empty port = inr [])
  ∧ (port < - n ∨ n ≤ port →
     Legacy.states game port = inl Legacy.IndexError
     ∧ Legacy.hitstun_buttons game port = inl Legacy.IndexError
     ∧ Legacy.buttons game port = inl Legacy.IndexError)
  ∧ (Legacy.list_item (ports f) port = Some None →
     Legacy.states game port = inl Legacy.AttributeError
     ∧ Legacy.hitstun_buttons game port = inl Legacy.AttributeError
     ∧ Legacy.buttons game port = inl Legacy.AttributeError)
  ∧ (0 ≤ port < n →
     Legacy.port_leader f (port - n) = Legacy.port_leader f port).
Proof.
  intros n game empty. split; [repeat split|]. split; [|split].
  - intros Hrange. apply list_item_range in Hrange.
    unfold Legacy.states, Legacy.hitstun_buttons, Legacy.buttons. simpl.
    unfold Legacy.port_leader. rewrite Hrange. repeat split.
  - intros Hslot.
    unfold Legacy.states, Legacy.hitstun_buttons, Legacy.buttons. simpl.
    unfold Legacy.port_leader. rewrite Hslot. repeat split.
  - intros Hrange. unfold Legacy.port_leader, Legacy.list_item. fold n.
    rewrite (decide_False (P := 0 ≤ port - n)) by lia.
    rewrite (decide_True (P := - n ≤ port - n)) by lia.
    rewrite (decide_True (P := 0 ≤ port)) by lia.
    replace (n + (port - n)) with port by lia. reflexivity.
Qed.

(** X22: in what [hitstun_buttons] returns, the entry of a frame is the
    empty tuple both when the stun counter is zero and when nothing is
    held, so the two are not told apart; for a positive counter the
    entry formats to the value of the hitstun_buttons extractor, and for
    a negative counter the list function keeps the held buttons while
    the extractor answers ["(not in hitstun)"]. *)
Theorem legacy_hitstun_entries (game : Game) (port : Z) entries k f d :
  Legacy.hitstun_buttons game port = inr entries →
  frames game !! k = Some f →
  Legacy.port_leader f port = inr d →
  ∃ entry, entries !! k = Some entry
    ∧ (entry = [] ↔ hit_stun (post d) = 0 ∨ pressed (physical (pre d)) = [])
    ∧ (hit_stun (post d) > 0 → _hitstun_buttons d = _fmt_buttons (inl entry))
    ∧ (hit_stun (post d) < 0 →
       entry = sorted (pressed (physical (pre d)))
       ∧ _hitstun_buttons d = "(not in hitstun)").
Proof.
  intros Hh Hk Hd. unfold Legacy.hitstun_buttons in Hh.
  apply comprehension_inr in Hh.
  destruct (Forall2_lookup_l _ _ _ _ _ Hh Hk) as (entry & Hentry & Hf).
  cbn beta in Hf. rewrite Hd in Hf.
  exists entry. split; [exact Hentry|].
  assert (sorted (pressed (physical (pre d))) = []
          ↔ pressed (physical (pre d)) = []) as Hnil.
  { split.
    - intros Hs. apply Permutation_nil_r. rewrite <- Hs.
      symmetry. apply sorted_Permutation.
    - intros ->. reflexivity. }
  unfold _hitstun_buttons.
  case_decide as Hstun; injection Hf as <-.
  - split; [rewrite Hnil; split; [tauto|intros [?|?]; [contradiction|assumption]]|].
    split.
    + intros Hpos. rewrite decide_True by exact Hpos.
      unfold _buttons. rewrite fmt_buttons_sorted. reflexivity.
    + intros Hneg. split; [reflexivity|].
      rewrite decide_False by lia. reflexivity.
  - assert (hit_stun (post d) = 0) as Hzero by lia.
    split; [split; [tauto|reflexivity]|]. split; intros; lia.
Qed.

End LegacyMore.

(** ** The further properties on sample data *)

Lemma sample_names_distinct (b c : Melee.button) :
  Melee.name b = Melee.name c → b = c.
Proof. destruct b, c; simpl; intros Heq; first [reflexivity | discriminate]. Defined.

Lemma sample_names_comma_free (b : Melee.button) : comma_free (Melee.name b).
Proof. destruct b; simpl; repeat split; discriminate. Defined.

Lemma summarize_player_frames_counts_witness :
  _summarize_player_frames "P1" Samples.frame_stats false
  = inr Samples.frame_stats_tables
  ∧ Samples.frame_stats_tables !! "full_state" = Some {[ "WAIT" := 2; "DASH" := 1 ]}
  ∧ default 0 (({[ "WAIT" := 2; "DASH" := 1 ]} : gmap string Z) !! "WAIT")
    = Z.of_nat (length (filter (λ fs : gmap string string,
                                  fs !! "full_state" = Some "WAIT")
                               Samples.frame_stats))
  ∧ (is_Some (({[ "WAIT" := 2; "DASH" := 1 ]} : gmap string Z) !! "WAIT")
     ↔ ∃ fs, fs ∈ Samples.frame_stats ∧ fs !! "full_state" = Some "WAIT").
Proof.
  assert (_summarize_player_frames "P1" Samples.frame_stats false
          = inr Samples.frame_stats_tables) as Hsum by reflexivity.
  assert (Samples.frame_stats_tables !! "full_state"
          = Some ({[ "WAIT" := 2; "DASH" := 1 ]} : gmap string Z)) as Hc
    by reflexivity.
  split; [exact Hsum|]. split; [exact Hc|].
  exact (summarize_player_frames_counts _ _ _ _ _ "WAIT" Hsum Hc).
Defined.

Lemma game_summary_pairs_by_rank_witness :
  game_summary Melee.slots_0_and_1 = inr Samples.two_players_summary
  ∧ ∃ player,
      omap id (players Melee.slots_0_and_1) !! 1%nat = Some player
      ∧ player_key_of player = inr "P2 (FOX)"
      ∧ ∃ tables, Samples.two_players_summary !! "P2 (FOX)" = Some tables
          ∧ ∀ axis handler, (axis, handler) ∈ FRAME_DATA_HANDLERS →
              ∃ counter, tables !! axis = Some counter
                ∧ ∀ value,
                    default 0 (counter !! value)
                    = Z.of_nat (length (filter
                        (λ f, slot_value handler 1 f = Some value)
                        (frames Melee.slots_0_and_1))).
Proof.
  assert (game_summary Melee.slots_0_and_1 = inr Samples.two_players_summary)
    as Hsum by reflexivity.
  split; [exact Hsum|].
  exists (@Build_Player Melee.parser (Some "P2") [("FOX", 1)]).
  assert (omap id (players Melee.slots_0_and_1) !! 1%nat
          = Some (@Build_Player Melee.parser (Some "P2") [("FOX", 1)]))
    as Hplayer by reflexivity.
  assert (player_key_of (@Build_Player Melee.parser (Some "P2") [("FOX", 1)])
          = inr "P2 (FOX)") as Hkey by reflexivity.
  split; [exact Hplayer|]. split; [exact Hkey|].
  apply (game_summary_pairs_by_rank _ _ 1%nat _ _ Hsum Hplayer Hkey).
  intros j later Hj Hlater.
  destruct j as [|[|[|j]]]; [lia|lia|discriminate Hlater|discriminate Hlater].
Defined.

Lemma game_summary_keys_witness :
  game_summary Melee.slots_0_and_1 = inr Samples.two_players_summary
  ∧ (∀ key, key ∈ dom Samples.two_players_summary
       ↔ ∃ player, player ∈ omap id (players Melee.slots_0_and_1)
                   ∧ player_key_of player = inr key)
  ∧ (size Samples.two_players_summary
     ≤ length (omap id (players Melee.slots_0_and_1)))%nat.
Proof.
  assert (game_summary Melee.slots_0_and_1 = inr Samples.two_players_summary)
    as Hsum by reflexivity.
  split; [exact Hsum|].
  exact (game_summary_keys _ _ Hsum).
Defined.

Lemma merge_game_stats_adds_witness :
  (nonneg_counts Scenario.first ∧ nonneg_counts Scenario.second)
  ∧ (∀ player axis value,
       default 0 (count_at (merge_game_stats Scenario.first Scenario.second)
                           player axis value)
       = default 0 (count_at Scenario.first player axis value)
         + default 0 (count_at Scenario.second player axis value))
  ∧ (∀ player axis,
       axis_total (merge_game_stats Scenario.first Scenario.second) player axis
       = axis_total Scenario.first player axis
         + axis_total Scenario.second player axis).
Proof.
  assert (nonneg_counts Scenario.first) as H1 by evaluate_counts.
  assert (nonneg_counts Scenario.second) as H2 by evaluate_counts.
  split; [split; assumption|].
  exact (merge_game_stats_adds _ _ H1 H2).
Defined.

Lemma combined_stats_totals_witness :
  combined_stats [Melee.three_frames; Melee.slots_0_and_1]
  = inr Samples.two_games_total
  ∧ axis_total Samples.two_games_total "P1 (MARTH)" "buttons"
    = foldr (λ g acc, frames_counted g "P1 (MARTH)" "buttons" + acc) 0
            [Melee.three_frames; Melee.slots_0_and_1].
Proof.
  assert (combined_stats [Melee.three_frames; Melee.slots_0_and_1]
          = inr Samples.two_games_total) as Hc by reflexivity.
  split; [exact Hc|].
  exact (combined_stats_totals _ _ "P1 (MARTH)" "buttons" Hc).
Defined.

Lemma combined_stats_aborts_witness :
  (∀ g', g' ∈ [Melee.three_frames] → ∃ summary, game_summary g' = inr summary)
  ∧ game_summary Melee.no_frames = inl IndexError
  ∧ combined_stats ([Melee.three_frames] ++ Melee.no_frames :: [Melee.slots_0_and_1])
    = inl IndexError.
Proof.
  assert (∀ g', g' ∈ [Melee.three_frames] →
            ∃ summary, game_summary g' = inr summary) as Hbefore.
  { intros g' Hg'. apply elem_of_cons in Hg' as [->|Hg'];
      [|apply elem_of_nil in Hg'; destruct Hg'].
    exists Melee.three_frames_summary. reflexivity. }
  assert (game_summary Melee.no_frames = inl IndexError) as Hg by reflexivity.
  split; [exact Hbefore|]. split; [exact Hg|].
  exact (combined_stats_aborts _ [Melee.slots_0_and_1] _ _ Hbefore Hg).
Defined.

Lemma batch_report_never_fails_witness :
  combined_stats [Melee.three_frames; Melee.slots_0_and_1]
  = inr Samples.two_games_total
  ∧ positive_counts Samples.two_games_total
  ∧ ∃ lines, report Samples.two_games_total = inr lines.
Proof.
  assert (combined_stats [Melee.three_frames; Melee.slots_0_and_1]
          = inr Samples.two_games_total) as Hc by reflexivity.
  split; [exact Hc|].
  exact (batch_report_never_fails _ _ Hc).
Defined.

Lemma state_group_labels_witness :
  NoDup [@WAIT Melee.parser; @SQUAT_WAIT Melee.parser; @WALK_FAST Melee.parser;
         @WALK_MIDDLE Melee.parser; @WALK_SLOW Melee.parser; @DASH Melee.parser]
  ∧ (_state_group (Melee.data 0 16 0) = "WAIT"
     ↔ (16 : Z) = WAIT ∨ (16 : Z) = SQUAT_WAIT)
  ∧ (_state_group (Melee.data 0 16 0) = "WALK"
     ↔ (16 : Z) = WALK_FAST ∨ (16 : Z) = WALK_MIDDLE ∨ (16 : Z) = WALK_SLOW)
  ∧ (_state_group (Melee.data 0 16 0) = "DASH" ↔ (16 : Z) = DASH)
  ∧ (_state_group (Melee.data 0 16 0) = "OTHER"
     ↔ (16 : Z) ∉ [@WAIT Melee.parser; SQUAT_WAIT; WALK_FAST; WALK_MIDDLE;
                   WALK_SLOW; DASH]).
Proof.
  split; [exact sample_states_distinct|].
  exact (state_group_labels (Melee.data 0 16 0) sample_states_distinct).
Defined.

Lemma buttons_injective_witness :
  (∀ b c : Melee.button, Melee.name b = Melee.name c → b = c)
  ∧ (∀ b : Melee.button, comma_free (Melee.name b))
  ∧ (∀ b : Melee.button, head_char (Melee.name b) ≠ Some "("%char)
  ∧ _buttons (Melee.data 320 20 4) = _buttons (Melee.data 320 14 0)
  ∧ Melee.held 320 ≡ₚ Melee.held 320.
Proof.
  assert (_buttons (Melee.data 320 20 4) = _buttons (Melee.data 320 14 0))
    as Heq by reflexivity.
  split; [exact sample_names_distinct|]. split; [exact sample_names_comma_free|].
  split; [exact sample_names_plain|]. split; [exact Heq|].
  exact (buttons_injective (Melee.data 320 20 4) (Melee.data 320 14 0)
           sample_names_distinct sample_names_comma_free sample_names_plain Heq).
Defined.

Lemma legacy_buttons_classified_witness :
  0 ≤ 0
  ∧ Legacy.buttons Melee.three_frames 0
    = inr [[]; []; [Melee.BTN_L; Melee.BTN_A]]
  ∧ length [[]; []; [Melee.BTN_L; Melee.BTN_A]]
    = length (frames Melee.three_frames)
  ∧ ∀ k f, frames Melee.three_frames !! k = Some f →
      ∃ tuple stats,
        [[]; []; [Melee.BTN_L; Melee.BTN_A]] !! k = Some tuple
        ∧ _handle_frame f !! Z.to_nat 0 = Some stats
        ∧ stats !! "buttons" = Some (_fmt_buttons (inl tuple)).
Proof.
  assert (0 ≤ 0) as Hport by lia.
  assert (Legacy.buttons Melee.three_frames 0
          = inr [[]; []; [Melee.BTN_L; Melee.BTN_A]]) as Hb by reflexivity.
  split; [exact Hport|]. split; [exact Hb|].
  exact (legacy_buttons_classified Melee.three_frames 0 _ Hport Hb).
Defined.

Lemma legacy_hitstun_entries_witness :
  Legacy.hitstun_buttons Melee.three_frames 0
  = inr [[]; []; [Melee.BTN_L; Melee.BTN_A]]
  ∧ frames Melee.three_frames !! 2%nat = Some {| ports := [Melee.slot 320 20 4] |}
  ∧ Legacy.port_leader {| ports := [Melee.slot 320 20 4] |} 0
    = inr (Melee.data 320 20 4)
  ∧ ∃ entry, [[]; []; [Melee.BTN_L; Melee.BTN_A]] !! 2%nat = Some entry
      ∧ (entry = [] ↔ hit_stun (post (Melee.data 320 20 4)) = 0
                      ∨ pressed (physical (pre (Melee.data 320 20 4))) = [])
      ∧ (hit_stun (post (Melee.data 320 20 4)) > 0 →
         _hitstun_buttons (Melee.data 320 20 4) = _fmt_buttons (inl entry))
      ∧ (hit_stun (post (Melee.data 320 20 4)) < 0 →
         entry = sorted (pressed (physical (pre (Melee.data 320 20 4))))
         ∧ _hitstun_buttons (Melee.data 320 20 4) = "(not in hitstun)").
Proof.
  assert (Legacy.hitstun_buttons Melee.three_frames 0
          = inr [[]; []; [Melee.BTN_L; Melee.BTN_A]]) as Hh by reflexivity.
  assert (frames Melee.three_frames !! 2%nat
          = Some {| ports := [Melee.slot 320 20 4] |}) as Hk by reflexivity.
  assert (Legacy.port_leader {| ports := [Melee.slot 320 20 4] |} 0
          = inr (Melee.data 320 20 4)) as Hd by reflexivity.
  split; [exact Hh|]. split; [exact Hk|]. split; [exact Hd|].
  exact (legacy_hitstun_entries Melee.three_frames 0 _ 2%nat _ _ Hh Hk Hd).
Defined.

Lemma print_player_stats_rows_witness :
  _print_player_stats "P1" {[ "full_state" := {[ "WAIT" := 2; "DASH" := 1 ]} ]}
  = inr [ PlayerLine "P1"; AxisLine "full_state";
          RowsBlock [ {| numerator := 200; denominator := 3; stat := "WAIT" |};
                      {| numerator := 100; denominator := 3; stat := "DASH" |} ] ]
  ∧ ∃ blocks,
      [ PlayerLine "P1"; AxisLine "full_state";
        RowsBlock [ {| numerator := 200; denominator := 3; stat := "WAIT" |};
                    {| numerator := 100; denominator := 3; stat := "DASH" |} ] ]
      = PlayerLine "P1" :: concat blocks
      ∧ Forall2 (λ (kc : string * gmap string Z) block,
           ∃ rows, block = [AxisLine kc.1; RowsBlock rows]
             ∧ length rows = Nat.min 10 (size kc.2)
             ∧ Sorted (λ r1 r2, numerator r2 ≤ numerator r1) rows
             ∧ Forall (λ r, denominator r = counter_total kc.2
                            ∧ ∃ count, kc.2 !! stat r = Some count
                                       ∧ numerator r = 100 * count) rows)
         (map_to_list ({[ "full_state" := {[ "WAIT" := 2; "DASH" := 1 ]} ]}
                         : gmap string (gmap string Z))) blocks.
Proof.
  assert (_print_player_stats "P1"
            {[ "full_state" := {[ "WAIT" := 2; "DASH" := 1 ]} ]}
          = inr [ PlayerLine "P1"; AxisLine "full_state";
                  RowsBlock [ {| numerator := 200; denominator := 3; stat := "WAIT" |};
                              {| numerator := 100; denominator := 3; stat := "DASH" |} ] ])
    as Hprint by reflexivity.
  split; [exact Hprint|].
  exact (print_player_stats_rows "P1" _ _ Hprint).
Defined.
